(** * skydb authentication data and schema handlers

    A shallow embedding of the Go package [skydb] (AuthData, AuthInfo) and of
    the field-access update handler of the record gear, with the properties
    the specification states about them.

    Go maps are reference values: the embedding keeps them in a store of
    map objects and the structures hold references into that store, so that
    copying ([GetData]) and in-place update ([UpdateFromRecordData]) can be
    told apart. *)

From Stdlib Require Import ZArith.
From stdpp Require Import base option list gmap sets strings.

(** ** Dynamic values and map objects *)

(** What an [interface{}] cell of an attribute map holds: Go's untyped
    [nil], a scalar as JSON decoding produces it, or a nested map, which is a
    reference like every Go map. The operations below compare a cell with
    [nil] and copy it; none looks inside a nested value. *)
Inductive value : Type :=
  | VNil
  | VBool (b : bool)
  | VNum (n : Z)
  | VString (s : string)
  | VMap (l : positive).

#[global] Instance value_eq_dec : EqDecision value.
Proof. solve_decision. Defined.

Definition is_nil (v : value) : bool :=
  match v with VNil => true | _ => false end.

(** A [map[string]interface{}] object, and the store of such objects. *)
Abbreviation gomap := (gmap string value).
Abbreviation loc := positive (only parsing).
Abbreviation store := (gmap loc gomap).

(** A Go value of map type: the nil map, or a reference to an object. *)
Inductive mapref : Type :=
  | NilMap
  | MapAt (l : loc).

#[global] Instance mapref_eq_dec : EqDecision mapref.
Proof. solve_decision. Defined.

(** The entries a map value denotes. Reading the nil map behaves like
    reading an empty map. *)
Definition entries (h : store) (r : mapref) : gomap :=
  match r with
  | NilMap => ∅
  | MapAt l => default ∅ (h !! l)
  end.

(** A reference is usable in [h] when it is nil or points to an object. *)
Definition allocated (h : store) (r : mapref) : Prop :=
  match r with
  | NilMap => True
  | MapAt l => is_Some (h !! l)
  end.

(** [m[k]] : the zero value [nil] for a missing key. *)
Definition index (m : gomap) (k : string) : value := default VNil (m !! k).

(** The keys visited by [for k := range m]. Go leaves the order open; every
    key is visited once. *)
Definition range_keys (m : gomap) : list string := (map_to_list m).*1.

(** [m[k] = v] and [delete(m, k)] on the object at [l]. *)
Definition map_assign (h : store) (l : loc) (k : string) (v : value) : store :=
  alter (insert k v) l h.

Definition map_delete (h : store) (l : loc) (k : string) : store :=
  alter (delete k) l h.

(** Outcome of a call that may panic. *)
Inductive outcome (A : Type) : Type :=
  | Returns (a : A)
  | Panics (msg : string).
Arguments Returns {A} a.
Arguments Panics {A} msg.

(** ** Predicate model *)

(** Modelled from the spec: the declarations of [Operator], [ExpressionType],
    [Expression] and [Predicate] live in a file of the package that is not
    embedded here; section 3
    gives Operator ∈ {Equal, And, Or, …}, expressions tagged [KeyPath] or
    [Literal], and predicate children that are expressions or predicates. *)
Inductive Operator : Type := And | Or | Equal.

Inductive ExpressionType : Type := Literal | KeyPath.

Record Expression : Type := mkExpression {
  Type_ : ExpressionType;
  Value : value
}.

Inductive Predicate : Type :=
  | mkPredicate (operator : Operator) (children : list PredicateChild)
with PredicateChild : Type :=
  | ChildExpression (e : Expression)
  | ChildPredicate (p : Predicate).

Definition Children (p : Predicate) : list PredicateChild :=
  match p with mkPredicate _ c => c end.

Definition Operator_of (p : Predicate) : Operator :=
  match p with mkPredicate o _ => o end.

(** ** AuthData *)

Record AuthData : Type := mkAuthData {
  data : mapref;
  keys : list (list string)
}.

Definition NewAuthData (d : mapref) (authRecordKeys : list (list string)) : AuthData :=
  {| data := d; keys := authRecordKeys |}.

(** [allKeys]: collect every field of every group in a [map[string]bool],
    then list the keys of that map. *)
Definition allKeys_keyMap (a : AuthData) : gmap string bool :=
  foldl (λ keyMap ks, foldl (λ keyMap key, <[key := true]> keyMap) keyMap ks)
        ∅ (keys a).

Definition allKeys (a : AuthData) : list string :=
  (map_to_list (allKeys_keyMap a)).*1.

Definition isFieldEmpty (h : store) (a : AuthData) (key : string) : bool :=
  is_nil (index (entries h (data a)) key).

(** The two inner loops of [usingKeys]: for each [k] of the group, every
    key [dk] of the data map is compared with it. *)
Definition usingKeys_count (h : store) (a : AuthData) (ks : list string) : nat :=
  foldl (λ count k,
           foldl (λ count dk,
                    if String.eqb k dk && negb (isFieldEmpty h a dk)
                    then S count else count)
                 count (range_keys (entries h (data a))))
        0 ks.

Fixpoint usingKeys_scan (h : store) (a : AuthData) (groups : list (list string))
  : list string :=
  match groups with
  | [] => []
  | ks :: rest =>
      if Nat.eqb (length ks) (usingKeys_count h a ks) then ks
      else usingKeys_scan h a rest
  end.

Definition usingKeys (h : store) (a : AuthData) : list string :=
  usingKeys_scan h a (keys a).

(** [GetData]: a new map object, filled entry by entry from [a.data]. *)
Definition GetData (h : store) (a : AuthData) : store * mapref :=
  let c := fresh (dom h) in
  let h0 := <[c := ∅]> h in
  (foldl (λ h' kv, map_assign h' c kv.1 kv.2) h0 (map_to_list (entries h (data a))),
   MapAt c).

Definition appendEqualPredicateForKey (h : store) (a : AuthData)
    (predicates : list PredicateChild) (key : string) : list PredicateChild :=
  if is_nil (index (entries h (data a)) key) then predicates
  else predicates ++
       [ChildPredicate
          (mkPredicate Equal
             [ChildExpression {| Type_ := KeyPath; Value := VString key |};
              ChildExpression {| Type_ := Literal;
                                 Value := index (entries h (data a)) key |}])].

Definition MakeEqualPredicate (h : store) (a : AuthData) : Predicate :=
  mkPredicate And (foldl (appendEqualPredicateForKey h a) [] (usingKeys h a)).

(** [UpdateFromRecordData]: [a.data[k] = data[k]] for each [k] of [allKeys].
    Assigning to an entry of the nil map panics in Go, which happens at the
    first iteration if there is one. The record data is itself a map value
    and is read from the current store at every iteration. *)
Definition UpdateFromRecordData (h : store) (a : AuthData) (rdata : mapref)
  : store * outcome unit :=
  match data a with
  | MapAt l =>
      (foldl (λ h' k, map_assign h' l k (index (entries h' rdata) k)) h (allKeys a),
       Returns tt)
  | NilMap =>
      match allKeys a with
      | [] => (h, Returns tt)
      | _ :: _ => (h, Panics "assignment to entry in nil map")
      end
  end.

(** The [break]-ing search of [IsValid]'s inner loop. *)
Fixpoint IsValid_found (dk : string) (ks : list string) : bool :=
  match ks with
  | [] => false
  | k :: rest => if String.eqb dk k then true else IsValid_found dk rest
  end.

Fixpoint IsValid_scan (h : store) (a : AuthData) (dks : list string) : bool :=
  match dks with
  | [] => Nat.ltb 0 (length (usingKeys h a))
  | dk :: rest =>
      if negb (IsValid_found dk (allKeys a)) then false
      else IsValid_scan h a rest
  end.

Definition IsValid (h : store) (a : AuthData) : bool :=
  IsValid_scan h a (range_keys (entries h (data a))).

Fixpoint IsEmpty_scan (h : store) (a : AuthData) (ks : list string) : bool :=
  match ks with
  | [] => true
  | k :: rest => if negb (isFieldEmpty h a k) then false else IsEmpty_scan h a rest
  end.

Definition IsEmpty (h : store) (a : AuthData) : bool :=
  if Nat.eqb (size (entries h (data a))) 0 then true
  else IsEmpty_scan h a (range_keys (entries h (data a))).

(** ** Specification-side notions for key groups *)

(** A field is present in [D] with a non-null value. *)
Definition field_set (D : gomap) (k : string) : Prop :=
  ∃ v, D !! k = Some v ∧ v ≠ VNil.

#[global] Instance field_set_dec D k : Decision (field_set D k).
Proof.
  unfold field_set. destruct (D !! k) as [v|].
  - destruct (decide (v = VNil)) as [->|Hv].
    + right. intros (v' & Hv' & Hn). by simplify_eq.
    + left. eauto.
  - right. intros (v & Hv & _). done.
Defined.

(** A group is satisfied when each of its fields is. *)
Definition satisfied (D : gomap) (g : list string) : Prop :=
  Forall (field_set D) g.

#[global] Instance satisfied_dec D g : Decision (satisfied D g).
Proof. unfold satisfied. apply _. Defined.

(** The first satisfied group in declared order, the empty sequence if
    there is none: the result the specification asks of [usingKeys]. *)
Fixpoint first_satisfied (D : gomap) (G : list (list string)) : list string :=
  match G with
  | [] => []
  | g :: G' => if decide (satisfied D g) then g else first_satisfied D G'
  end.

(** The children the specification asks of [MakeEqualPredicate] for a group:
    one [Equal(KeyPath k, Literal D[k])] per field, null values skipped. *)
Definition equal_term (D : gomap) (k : string) : PredicateChild :=
  ChildPredicate
    (mkPredicate Equal
       [ChildExpression {| Type_ := KeyPath; Value := VString k |};
        ChildExpression {| Type_ := Literal; Value := index D k |}]).

Definition equal_terms (D : gomap) (g : list string) : list PredicateChild :=
  omap (λ k, if decide (index D k = VNil) then None else Some (equal_term D k)) g.

(** Writes a caller can make through a map value it holds. *)
Inductive map_write : Type :=
  | Assign (k : string) (v : value)
  | Delete (k : string).

Definition apply_write (l : loc) (h : store) (w : map_write) : store :=
  match w with
  | Assign k v => map_assign h l k v
  | Delete k => map_delete h l k
  end.

Definition apply_writes (l : loc) (h : store) (ws : list map_write) : store :=
  foldl (apply_write l) h ws.

(** ** AuthInfo *)

Abbreviation bytes := (list Byte.byte).
Abbreviation error := string (only parsing).

(** An instant, in nanoseconds since the epoch. [UTC()] changes the
    location a time is displayed in, not the instant. *)
Abbreviation Time := Z (only parsing).

(** The [bcrypt] package is an external collaborator, taken here as an
    interface. [GenerateFromPassword] draws its salt from the system's
    random source, which is made an argument; it returns an error or a hash.
    [CompareHashAndPassword] returns [None] for Go's [nil] error. *)
Class Bcrypt : Type := {
  GenerateFromPassword : bytes → Z → bytes → error + bytes;
  CompareHashAndPassword : bytes → bytes → option error
}.

Definition DefaultCost : Z := 10.

(** Two facts of the package are assumed where a theorem needs them, never
    as facts of this file: comparison accepts the password a hash was
    generated from, and the empty hash, which is too short to be a hash, is
    rejected. The converse of the first is not assumed. The package derives
    its key from the password followed by a NUL byte, repeated, and reads 72
    bytes of it, so different passwords can share a hash. *)
Definition accepts_generated (B : Bcrypt) : Prop :=
  ∀ pw cost salt hash,
    GenerateFromPassword pw cost salt = inr hash →
    CompareHashAndPassword hash pw = None.

Definition rejects_empty_hash (B : Bcrypt) : Prop :=
  ∀ pw, CompareHashAndPassword [] pw ≠ None.

(** What a call reads from its surroundings: the random source and the
    wall clock. *)
Record Env : Type := mkEnv {
  entropy : bytes;
  timeNow : Time
}.

Record AuthInfo : Type := mkAuthInfo {
  ID : string;
  HashedPassword : bytes;
  Roles : list string;
  ProviderInfo : option (gmap string gomap);
  TokenValidSince : option Time;
  LastSeenAt : option Time
}.

(** [AuthInfo{ID: id}]: every other field has its zero value. *)
Definition AuthInfo_with_ID (id : string) : AuthInfo :=
  {| ID := id; HashedPassword := []; Roles := []; ProviderInfo := None;
     TokenValidSince := None; LastSeenAt := None |}.

Section AuthInfo_methods.
Context {B : Bcrypt}.

(** [SetPassword] has a pointer receiver: the first component is the
    receiver after the call, also when the call panics. *)
Definition SetPassword (env : Env) (password : string) (info : AuthInfo)
  : AuthInfo * outcome unit :=
  match GenerateFromPassword (String.list_byte_of_string password)
                             DefaultCost (entropy env) with
  | inl err => (info, Panics "authinfo: Failed to hash password")
  | inr hashedPassword =>
      ({| ID := ID info;
          HashedPassword := hashedPassword;
          Roles := Roles info;
          ProviderInfo := ProviderInfo info;
          TokenValidSince := Some (timeNow env);
          LastSeenAt := LastSeenAt info |},
       Returns tt)
  end.

Definition IsSamePassword (info : AuthInfo) (password : string) : bool :=
  match CompareHashAndPassword (HashedPassword info)
                               (String.list_byte_of_string password) with
  | None => true
  | Some _ => false
  end.

(** [uuid.New()] is the argument [id]. *)
Definition NewAuthInfo (id : string) (env : Env) (password : string)
  : outcome AuthInfo :=
  match SetPassword env password (AuthInfo_with_ID id) with
  | (info, Returns _) => Returns info
  | (_, Panics msg) => Panics msg
  end.
End AuthInfo_methods.

Definition NewAnonymousAuthInfo (id : string) : AuthInfo := AuthInfo_with_ID id.

(** The watermark after a call is strictly later than before it. An absent
    watermark counts as earlier than any instant. *)
Definition watermark_lt (before after : option Time) : Prop :=
  match before, after with
  | None, Some _ => True
  | Some t, Some t' => (t < t')%Z
  | _, None => False
  end.

#[global] Instance byte_eq_dec : EqDecision Byte.byte := Byte.byte_eq_dec.

(** An instance of the interface that keeps the password in the clear
    behind a marker byte. It has no cryptographic use: it shows that the
    assumptions above can be met and lets the statements below be run. *)
Definition transparent_generate (pw : bytes) (cost : Z) (salt : bytes) : error + bytes :=
  if Nat.ltb 72 (length pw) then inl "bcrypt: password length exceeds 72 bytes"
  else inr (Byte.x24 :: pw).

Definition transparent_compare (hash pw : bytes) : option error :=
  match hash with
  | [] => Some "crypto/bcrypt: hashedSecret too short to be a bcrypted password"
  | _ :: stored =>
      if decide (stored = pw) then None
      else Some "crypto/bcrypt: hashedPassword is not the hash of the given password"
  end.

Definition transparent_bcrypt : Bcrypt :=
  {| GenerateFromPassword := transparent_generate;
     CompareHashAndPassword := transparent_compare |}.

(** The key the package derives from a password: the password followed by
    a NUL byte, repeated, cut to 72 bytes. *)
Definition bcrypt_key (pw : bytes) : bytes :=
  take 72 (mjoin (replicate 72 (pw ++ [Byte.x00]))).

(** An instance that keeps that key in the clear behind a marker byte. It
    has no cryptographic use either; it meets both assumptions above and
    tells two passwords apart exactly when their keys differ. *)
Definition keyed_generate (pw : bytes) (cost : Z) (salt : bytes) : error + bytes :=
  if Nat.ltb 72 (length pw) then inl "bcrypt: password length exceeds 72 bytes"
  else inr (Byte.x24 :: bcrypt_key pw).

Definition keyed_compare (hash pw : bytes) : option error :=
  match hash with
  | [] => Some "crypto/bcrypt: hashedSecret too short to be a bcrypted password"
  | _ :: stored =>
      if decide (stored = bcrypt_key pw) then None
      else Some "crypto/bcrypt: hashedPassword is not the hash of the given password"
  end.

Definition keyed_bcrypt : Bcrypt :=
  {| GenerateFromPassword := keyed_generate;
     CompareHashAndPassword := keyed_compare |}.

(** ** Field access update handler *)

(** One entry of the [access] list of the documented request. *)
Record FieldACLEntry : Type := mkFieldACLEntry {
  record_type : string;
  record_field : string;
  user_role : string;
  writable : bool;
  readable : bool;
  comparable : bool;
  discoverable : bool
}.

#[global] Instance FieldACLEntry_eq_dec : EqDecision FieldACLEntry.
Proof. solve_decision. Defined.

(** The JSON document a client posts, as the handler's comment shows it. *)
Record RequestBody : Type := mkRequestBody {
  access : list FieldACLEntry
}.

(** The payload struct has no field. *)
Inductive FieldAccessUpdateRequestPayload : Type :=
  | mkFieldAccessUpdateRequestPayload.

Definition Validate (s : FieldAccessUpdateRequestPayload) : option error := None.

(** Modelled from the spec: the [record.Store] interface behind the handler's
    [RecordStore] field is declared in a file that is not embedded here; of
    its state only the field access table is kept, the rule set of sections 3
    and 4.3. *)
Record RecordStore : Type := mkRecordStore {
  fieldACL : list FieldACLEntry
}.

(** [json.Decoder.Decode] into the field-less payload. The decoder's verdict
    on the body is the argument: an error, or the document it parsed. An
    error is handed back; a parsed document gives the empty payload, since
    the struct has no field to receive [access]. *)
Definition DecodeRequest (decoded : error + RequestBody)
  : option FieldAccessUpdateRequestPayload * option error :=
  match decoded with
  | inl err => (None, Some err)
  | inr _ => (Some mkFieldAccessUpdateRequestPayload, None)
  end.

Definition WithTx : bool := true.

(** [Handle] returns its zero-valued named results. The store the handler
    holds is threaded through to show what the call leaves of it. *)
Definition Handle (s : RecordStore) (req : FieldAccessUpdateRequestPayload)
  : RecordStore * (option unit * option error) :=
  (s, (None, None)).

(** ** Sample data *)

Module Samples.
Definition username_or_email : list (list string) := [["username"]; ["email"]].

(** [D = {"nickname": "x"}] *)
Definition stray_store : store := {[ 1%positive := {[ "nickname" := VString "x" ]} ]}.
Definition stray : AuthData := NewAuthData (MapAt 1) username_or_email.

(** [D = {"username": "alice", "email": null}] *)
Definition alice_store : store :=
  {[ 1%positive := <[ "username" := VString "alice" ]> {[ "email" := VNil ]} ]}.
Definition alice : AuthData := NewAuthData (MapAt 1) username_or_email.

(** Three overlapping groups, the second and third satisfied. *)
Definition overlap_keys : list (list string) :=
  [["username"; "phone"]; ["email"; "username"]; ["email"]].
Definition overlap_store : store :=
  {[ 1%positive := <[ "username" := VString "bob" ]>
                   (<[ "email" := VString "bob@example.com" ]>
                    {[ "phone" := VNil ]}) ]}.
Definition overlap : AuthData := NewAuthData (MapAt 1) overlap_keys.

(** An empty group declared before a satisfied one. *)
Definition masked_keys : list (list string) := [["username"]; []; ["email"]].
Definition masked_store : store :=
  {[ 1%positive := {[ "email" := VString "carol@example.com" ]} ]}.
Definition masked : AuthData := NewAuthData (MapAt 1) masked_keys.

(** An AuthData built over the nil map, and a stored record. *)
Definition no_map : AuthData := NewAuthData NilMap username_or_email.
Definition record_store : store :=
  {[ 2%positive := {[ "username" := VString "dave" ]} ]}.

(** A principal whose watermark lies after the clock reading. *)
Definition clock : Env := {| entropy := []; timeNow := 1000 |}.
Definition ahead : AuthInfo :=
  {| ID := "u1"; HashedPassword := []; Roles := []; ProviderInfo := None;
     TokenValidSince := Some 2000%Z; LastSeenAt := None |}.

(** A password of 73 bytes, one more than the transparent instance hashes. *)
Definition long_password : string :=
  "aaaaaaaaaaaaaaaaaaaaaaaaaaaaaaaaaaaaaaaaaaaaaaaaaaaaaaaaaaaaaaaaaaaaaaaaa".

(** The request of the handler's comment, and a store with no rule. *)
Definition johndoe_rule : FieldACLEntry :=
  {| record_type := "note"; record_field := "content";
     user_role := "_user_id:johndoe";
     writable := false; readable := true;
     comparable := false; discoverable := false |}.
Definition documented_body : RequestBody := {| access := [johndoe_rule] |}.
Definition no_rules : RecordStore := {| fieldACL := [] |}.
End Samples.

(** ** AuthInfo: provider info *)

(** The [ProviderInfo] field holds, per principal ID, the entries of that
    principal's auth data; [None] is the nil map. The methods below store,
    return and delete a principal's data without looking inside it. They have
    pointer receivers and are given as functions from the receiver before
    the call to the receiver after it. *)
Definition NewProviderInfoAuthInfo (id principalID : string) (authData : gomap)
  : AuthInfo :=
  {| ID := id; HashedPassword := []; Roles := [];
     ProviderInfo := Some {[ principalID := authData ]};
     TokenValidSince := None; LastSeenAt := None |}.

(** A nil [ProviderInfo] is replaced by a new empty map before the entry is
    assigned. *)
Definition SetProviderInfoData (principalID : string) (authData : gomap)
    (info : AuthInfo) : AuthInfo :=
  let providerInfo :=
    match ProviderInfo info with
    | None => ∅
    | Some m => m
    end in
  {| ID := ID info;
     HashedPassword := HashedPassword info;
     Roles := Roles info;
     ProviderInfo := Some (<[principalID := authData]> providerInfo);
     TokenValidSince := TokenValidSince info;
     LastSeenAt := LastSeenAt info |}.

(** [None] is the nil map Go returns for a nil [ProviderInfo] or a principal
    that has no entry. *)
Definition GetProviderInfoData (info : AuthInfo) (principalID : string)
  : option gomap :=
  match ProviderInfo info with
  | None => None
  | Some m => m !! principalID
  end.

Definition RemoveProviderInfoData (principalID : string) (info : AuthInfo)
  : AuthInfo :=
  match ProviderInfo info with
  | Some m =>
      {| ID := ID info;
         HashedPassword := HashedPassword info;
         Roles := Roles info;
         ProviderInfo := Some (delete principalID m);
         TokenValidSince := TokenValidSince info;
         LastSeenAt := LastSeenAt info |}
  | None => info
  end.

(** ** Further sample data *)

Module MoreSamples.
(** [D = {"username": null, "email": null}] under [[username], [], [email]]:
    data that is empty in the sense of [IsEmpty]. *)
Definition blank_store : store :=
  {[ 1%positive := <[ "username" := VNil ]> {[ "email" := VNil ]} ]}.
Definition blank : AuthData := NewAuthData (MapAt 1) Samples.masked_keys.

(** Candidate attributes at object 1 and a stored record at object 2. *)
Definition signup_store : store :=
  <[ 1%positive := <[ "username" := VString "Eve" ]>
                   {[ "nickname" := VString "e" ]} ]>
  {[ 2%positive := <[ "username" := VString "eve" ]>
                   {[ "email" := VString "eve@example.com" ]} ]}.
Definition signup : AuthData := NewAuthData (MapAt 1) Samples.username_or_email.

(** A password of 72 bytes, the longest the instances hash. *)
Definition password72 : string :=
  "aaaaaaaaaaaaaaaaaaaaaaaaaaaaaaaaaaaaaaaaaaaaaaaaaaaaaaaaaaaaaaaaaaaaaaaa".

Definition facebook : gomap :=
  <[ "accessToken" := VString "someAccessToken" ]>
  {[ "facebookID" := VString "46709394" ]}.
End MoreSamples.

(** * Proofs *)

(** ** Lemmas on values and map objects *)

Lemma is_nil_true v : is_nil v = true ↔ v = VNil.
Proof. destruct v; simpl; split; congruence. Qed.

Lemma is_nil_false v : is_nil v = false ↔ v ≠ VNil.
Proof. destruct v; simpl; split; congruence. Qed.

Lemma elem_of_range_keys (m : gomap) (k : string) :
  k ∈ range_keys m ↔ is_Some (m !! k).
Proof.
  unfold range_keys. rewrite list_elem_of_fmap. split.
  - intros [[k' v] [-> Hin]]. apply elem_of_map_to_list in Hin. eauto.
  - intros [v Hv]. exists (k, v). split; [done|]. by apply elem_of_map_to_list.
Qed.

Lemma NoDup_range_keys (m : gomap) : NoDup (range_keys m).
Proof. apply NoDup_fst_map_to_list. Qed.

Lemma field_set_index (D : gomap) (k : string) :
  field_set D k ↔ k ∈ range_keys D ∧ is_nil (index D k) = false.
Proof.
  rewrite elem_of_range_keys, is_nil_false. unfold field_set, index. split.
  - intros (v & Hv & Hn). rewrite Hv. eauto.
  - intros [[v Hv] Hn]. rewrite Hv in Hn. eauto.
Qed.

Lemma field_set_not_nil (D : gomap) (k : string) :
  field_set D k ↔ index D k ≠ VNil.
Proof.
  unfold field_set, index. split.
  - intros (v & -> & Hn). done.
  - destruct (D !! k) as [v|]; simpl; [eauto|done].
Qed.

(** ** The loops of [usingKeys] *)

Section usingKeys_loops.
Variables (h : store) (a : AuthData).

Let D := entries h (data a).

Lemma usingKeys_inner_loop k l c :
  NoDup l →
  foldl (λ count dk,
           if String.eqb k dk && negb (isFieldEmpty h a dk)
           then S count else count) c l
  = c + (if decide (k ∈ l) then if isFieldEmpty h a k then 0 else 1 else 0).
Proof.
  intros Hnd. revert c. induction Hnd as [|dk l Hnotin Hnd IH]; intros c.
  - simpl foldl. case_decide as Hin; [by apply not_elem_of_nil in Hin | lia].
  - simpl foldl. rewrite IH.
    destruct (String.eqb_spec k dk) as [->|Hne]; simpl andb.
    + rewrite (decide_False (P := dk ∈ l)) by done.
      rewrite (decide_True (P := dk ∈ dk :: l)) by apply list_elem_of_here.
      destruct (isFieldEmpty h a dk); simpl; lia.
    + destruct (decide (k ∈ l)) as [Hin|Hnin].
      * rewrite (decide_True (P := k ∈ dk :: l)) by (by apply list_elem_of_further).
        done.
      * rewrite (decide_False (P := k ∈ dk :: l)); [done|].
        rewrite elem_of_cons. intros [?|?]; done.
Qed.

Lemma usingKeys_inner_hit k c :
  foldl (λ count dk,
           if String.eqb k dk && negb (isFieldEmpty h a dk)
           then S count else count) c (range_keys D)
  = c + (if decide (field_set D k) then 1 else 0).
Proof.
  rewrite usingKeys_inner_loop by apply NoDup_range_keys.
  f_equal. unfold isFieldEmpty. fold D.
  destruct (decide (field_set D k)) as [Hs|Hs].
  - apply field_set_index in Hs as [Hin Hn].
    rewrite decide_True by done. by rewrite Hn.
  - destruct (decide (k ∈ range_keys D)) as [Hin|]; [|done].
    destruct (is_nil (index D k)) eqn:Hn; [done|].
    exfalso. apply Hs, field_set_index. done.
Qed.

Lemma usingKeys_count_sum ks c :
  ∃ n, foldl (λ count k,
                foldl (λ count dk,
                         if String.eqb k dk && negb (isFieldEmpty h a dk)
                         then S count else count)
                      count (range_keys D)) c ks = c + n
       ∧ n ≤ length ks ∧ (n = length ks ↔ satisfied D ks).
Proof.
  revert c. induction ks as [|k ks IH]; intros c; simpl.
  - exists 0. split; [lia|]. split; [lia|]. split; [constructor|done].
  - rewrite usingKeys_inner_hit. destruct (IH (c + (if decide (field_set D k) then 1 else 0)))
      as (n & -> & Hle & Hiff).
    exists ((if decide (field_set D k) then 1 else 0) + n).
    split; [lia|]. unfold satisfied in *.
    destruct (decide (field_set D k)) as [Hk|Hk].
    + split; [lia|]. rewrite Forall_cons. split.
      * intros Heq. split; [done|]. apply Hiff. lia.
      * intros [_ Hall]. apply Hiff in Hall. lia.
    + split; [lia|]. rewrite Forall_cons. split; [lia|]. intros [? _]. done.
Qed.

Lemma usingKeys_count_full ks :
  Nat.eqb (length ks) (usingKeys_count h a ks) = bool_decide (satisfied D ks).
Proof.
  unfold usingKeys_count. fold D.
  destruct (usingKeys_count_sum ks 0) as (n & -> & Hle & Hiff). simpl.
  destruct (Nat.eqb_spec (length ks) n) as [Heq|Hne].
  - symmetry. apply bool_decide_eq_true. apply Hiff. done.
  - symmetry. apply bool_decide_eq_false. intros Hs. apply Hiff in Hs. lia.
Qed.

Lemma usingKeys_scan_first G :
  usingKeys_scan h a G = first_satisfied D G.
Proof.
  induction G as [|g G IH]; simpl; [done|].
  rewrite usingKeys_count_full, IH.
  destruct (decide (satisfied D g)) as [Hs|Hs].
  - by rewrite bool_decide_eq_true_2.
  - by rewrite bool_decide_eq_false_2.
Qed.
End usingKeys_loops.

(** ** [allKeys] and the loops of [IsValid] *)

Lemma allKeys_inner_lookup (ks : list string) (m : gmap string bool) (k : string) :
  is_Some (foldl (λ keyMap key, <[key := true]> keyMap) m ks !! k)
  ↔ k ∈ ks ∨ is_Some (m !! k).
Proof.
  revert m. induction ks as [|k' ks IH]; intros m; simpl.
  - rewrite elem_of_nil. tauto.
  - rewrite IH, elem_of_cons. destruct (decide (k' = k)) as [->|Hne].
    + rewrite lookup_insert_eq. split; [|eauto]. intros _. left. by left.
    + rewrite lookup_insert_ne by done. split.
      * intros [?|?]; auto.
      * intros [[?|?]|?]; auto. congruence.
Qed.

Lemma allKeys_outer_lookup (G : list (list string)) (m : gmap string bool) (k : string) :
  is_Some (foldl (λ keyMap ks, foldl (λ keyMap key, <[key := true]> keyMap) keyMap ks)
                 m G !! k)
  ↔ (∃ g, g ∈ G ∧ k ∈ g) ∨ is_Some (m !! k).
Proof.
  revert m. induction G as [|g G IH]; intros m; simpl.
  - split; [auto|]. intros [(g & Hg & _)|?]; [|done]. by apply elem_of_nil in Hg.
  - rewrite IH, allKeys_inner_lookup. split.
    + intros [(g' & Hg' & Hk)|[Hk|Hk]]; [left|left|by right].
      * exists g'. split; [by apply list_elem_of_further|done].
      * exists g. split; [apply list_elem_of_here|done].
    + intros [(g' & Hg' & Hk)|Hk]; [|auto].
      apply elem_of_cons in Hg' as [->|Hg']; [auto|]. left. eauto.
Qed.

(** [allKeys] lists the union of the fields of all groups. *)
Lemma elem_of_allKeys (a : AuthData) (k : string) :
  k ∈ allKeys a ↔ ∃ g, g ∈ keys a ∧ k ∈ g.
Proof.
  unfold allKeys, allKeys_keyMap.
  assert (∀ m : gmap string bool, k ∈ (map_to_list m).*1 ↔ is_Some (m !! k)) as ->.
  { intros m. rewrite list_elem_of_fmap. split.
    - intros [[k' v] [-> Hin]]. apply elem_of_map_to_list in Hin. eauto.
    - intros [v Hv]. exists (k, v). split; [done|]. by apply elem_of_map_to_list. }
  rewrite allKeys_outer_lookup, lookup_empty. split; [|auto].
  intros [?|[? ?]]; done.
Qed.

Lemma allKeys_NoDup (a : AuthData) : NoDup (allKeys a).
Proof. apply NoDup_fst_map_to_list. Qed.

Lemma IsValid_found_elem (dk : string) (ks : list string) :
  IsValid_found dk ks = bool_decide (dk ∈ ks).
Proof.
  induction ks as [|k ks IH]; cbn [IsValid_found].
  - symmetry. apply bool_decide_eq_false, not_elem_of_nil.
  - destruct (String.eqb_spec dk k) as [->|Hne].
    + symmetry. apply bool_decide_eq_true, list_elem_of_here.
    + rewrite IH. apply bool_decide_ext. rewrite elem_of_cons. tauto.
Qed.

Lemma IsValid_scan_true (h : store) (a : AuthData) (dks : list string) :
  IsValid_scan h a dks = true
  ↔ Forall (λ dk, dk ∈ allKeys a) dks ∧ usingKeys h a ≠ [].
Proof.
  induction dks as [|dk dks IH]; simpl.
  - rewrite Nat.ltb_lt. split.
    + intros Hlen. split; [constructor|]. intros Heq. rewrite Heq in Hlen.
      simpl in Hlen. lia.
    + intros [_ Hne]. destruct (usingKeys h a); [done|simpl; lia].
  - rewrite IsValid_found_elem, Forall_cons.
    destruct (decide (dk ∈ allKeys a)) as [Hin|Hnin].
    + rewrite bool_decide_eq_true_2 by done. simpl. rewrite IH. tauto.
    + rewrite bool_decide_eq_false_2 by done. simpl. split; [done|tauto].
Qed.

Lemma foldl_appendEqualPredicateForKey (h : store) (a : AuthData)
    (g : list string) (acc : list PredicateChild) :
  foldl (appendEqualPredicateForKey h a) acc g
  = acc ++ equal_terms (entries h (data a)) g.
Proof.
  revert acc. induction g as [|k g IH]; intros acc; simpl.
  - by rewrite app_nil_r.
  - rewrite IH. unfold appendEqualPredicateForKey, equal_terms. simpl.
    destruct (decide (index (entries h (data a)) k = VNil)) as [Hn|Hn].
    + apply is_nil_true in Hn. by rewrite Hn.
    + apply is_nil_false in Hn. rewrite Hn. by rewrite <- app_assoc.
Qed.

Lemma equal_terms_satisfied (D : gomap) (g : list string) :
  satisfied D g → equal_terms D g = equal_term D <$> g.
Proof.
  induction 1 as [|k g Hk Hg IH]; [done|].
  apply field_set_not_nil in Hk. unfold equal_terms in *. cbn [omap list_omap].
  rewrite decide_False by done. rewrite IH. done.
Qed.

(** What [first_satisfied] returns. *)
Lemma first_satisfied_cases (D : gomap) (G : list (list string)) :
  (∃ pre g post, G = pre ++ g :: post ∧ Forall (λ g', ¬ satisfied D g') pre
                 ∧ satisfied D g ∧ first_satisfied D G = g)
  ∨ (Forall (λ g', ¬ satisfied D g') G ∧ first_satisfied D G = []).
Proof.
  induction G as [|g G IH]; simpl.
  - right. split; [constructor|done].
  - destruct (decide (satisfied D g)) as [Hs|Hs].
    + left. exists [], g, G. split; [done|]. split; [constructor|done].
    + destruct IH as [(pre & g' & post & -> & Hpre & Hg' & Heq)|[Hall Heq]].
      * left. exists (g :: pre), g', post. split; [done|].
        split; [by constructor|done].
      * right. split; [by constructor|done].
Qed.

Lemma first_satisfied_is_satisfied (D : gomap) (G : list (list string)) :
  Exists (satisfied D) G → satisfied D (first_satisfied D G).
Proof.
  induction 1 as [g G Hg|g G _ IH]; simpl.
  - by rewrite decide_True.
  - destruct (decide (satisfied D g)); done.
Qed.

Lemma first_satisfied_none (D : gomap) (G : list (list string)) :
  ¬ Exists (satisfied D) G → first_satisfied D G = [].
Proof.
  induction G as [|g G IH]; simpl; [done|]. intros Hn.
  rewrite decide_False.
  - apply IH. intros Hex. apply Hn. by apply Exists_cons_tl.
  - intros Hs. apply Hn. by apply Exists_cons_hd.
Qed.

Lemma first_satisfied_masked (D : gomap) (pre post : list (list string)) :
  Forall (λ g, g ≠ [] → ¬ satisfied D g) pre →
  first_satisfied D (pre ++ [] :: post) = [].
Proof.
  induction 1 as [|g pre Hg Hpre IH]; cbn [app first_satisfied].
  - rewrite decide_True; [done|constructor].
  - destruct (decide (satisfied D g)) as [Hs|Hs]; [|done].
    destruct g as [|k g]; [done|]. exfalso. by apply Hg.
Qed.

(** ** Key groups: [usingKeys], [IsValid], [MakeEqualPredicate] *)

Lemma usingKeys_eq_first_satisfied (h : store) (a : AuthData) :
  usingKeys h a = first_satisfied (entries h (data a)) (keys a).
Proof. apply usingKeys_scan_first. Qed.

(** C1. [usingKeys] returns the first group, in declared order, all of whose
    fields are present in the data with non-null values, and the empty
    sequence when no group is satisfied: either the key groups split as
    [pre ++ g :: post] with no group of [pre] satisfied, [g] satisfied and [g]
    the result, or no group is satisfied and the result is empty. *)
Theorem usingKeys_first_satisfied (h : store) (a : AuthData) :
  let D := entries h (data a) in
  usingKeys h a = first_satisfied D (keys a)
  ∧ ((∃ pre g post,
        keys a = pre ++ g :: post
        ∧ Forall (λ g', ¬ satisfied D g') pre
        ∧ satisfied D g
        ∧ usingKeys h a = g)
     ∨ (Forall (λ g', ¬ satisfied D g') (keys a) ∧ usingKeys h a = [])).
Proof.
  intros D. split; [apply usingKeys_eq_first_satisfied|].
  rewrite usingKeys_eq_first_satisfied. apply first_satisfied_cases.
Qed.

Lemma IsValid_true_iff (h : store) (a : AuthData) :
  IsValid h a = true
  ↔ (∀ k, is_Some (entries h (data a) !! k) → k ∈ allKeys a) ∧ usingKeys h a ≠ [].
Proof.
  unfold IsValid. rewrite IsValid_scan_true, Forall_forall.
  split; intros [Hkeys Hne]; (split; [|done]); intros k Hk; apply Hkeys.
  - by apply elem_of_range_keys.
  - by apply elem_of_range_keys in Hk.
Qed.

(** C2. [IsValid] is true exactly when every field name present in the data
    is one of [allKeys] (the fields of the groups) and [usingKeys] is not
    empty; the data [{"nickname": "x"}] under [[username], [email]] is
    invalid. *)
Theorem IsValid_iff_no_stray_and_group :
  (∀ (h : store) (a : AuthData),
     IsValid h a = true
     ↔ (∀ k, is_Some (entries h (data a) !! k) → k ∈ allKeys a)
       ∧ usingKeys h a ≠ [])
  ∧ (∀ (a : AuthData) (k : string), k ∈ allKeys a ↔ ∃ g, g ∈ keys a ∧ k ∈ g)
  ∧ IsValid Samples.stray_store Samples.stray = false.
Proof.
  split; [apply IsValid_true_iff|]. split; [apply elem_of_allKeys|].
  vm_compute. reflexivity.
Qed.

Lemma MakeEqualPredicate_equal_terms (h : store) (a : AuthData) :
  MakeEqualPredicate h a
  = mkPredicate And (equal_terms (entries h (data a)) (usingKeys h a)).
Proof.
  unfold MakeEqualPredicate. by rewrite foldl_appendEqualPredicateForKey.
Qed.

(** C3. [MakeEqualPredicate] returns an [And] whose children are one
    [Equal(KeyPath k, Literal D[k])] per field [k] of the group [usingKeys]
    returns, in group order, null values skipped. When a group is satisfied
    no field of it is skipped; when none is, the child list is empty. For
    [{"username": "alice", "email": null}] under [[username], [email]] the
    result is [And(Equal(username, "alice"))]. *)
Theorem MakeEqualPredicate_children :
  (∀ (h : store) (a : AuthData),
     let D := entries h (data a) in
     MakeEqualPredicate h a = mkPredicate And (equal_terms D (usingKeys h a))
     ∧ MakeEqualPredicate h a
       = (if decide (Exists (satisfied D) (keys a))
          then mkPredicate And (equal_term D <$> usingKeys h a)
          else mkPredicate And []))
  ∧ MakeEqualPredicate Samples.alice_store Samples.alice
    = mkPredicate And
        [ChildPredicate
           (mkPredicate Equal
              [ChildExpression {| Type_ := KeyPath; Value := VString "username" |};
               ChildExpression {| Type_ := Literal; Value := VString "alice" |}])].
Proof.
  split; [|vm_compute; reflexivity].
  intros h a D. split; [apply MakeEqualPredicate_equal_terms|].
  rewrite MakeEqualPredicate_equal_terms, usingKeys_eq_first_satisfied. fold D.
  destruct (decide (Exists (satisfied D) (keys a))) as [Hex|Hex].
  - by rewrite equal_terms_satisfied by by apply first_satisfied_is_satisfied.
  - by rewrite first_satisfied_none.
Qed.

(** C10. An empty group is returned by [usingKeys] as soon as the scan
    reaches it, whatever groups follow: when the key groups are
    [pre ++ [] :: post] and no non-empty group of [pre] is satisfied,
    [usingKeys] is empty, [IsValid] is false and [MakeEqualPredicate] is the
    [And] over no child. *)
Theorem empty_group_masks_later_groups
    (h : store) (a : AuthData) (pre post : list (list string)) :
  keys a = pre ++ [] :: post →
  Forall (λ g, g ≠ [] → ¬ satisfied (entries h (data a)) g) pre →
  usingKeys h a = []
  ∧ IsValid h a = false
  ∧ MakeEqualPredicate h a = mkPredicate And [].
Proof.
  intros Hkeys Hpre.
  assert (usingKeys h a = []) as Hu.
  { rewrite usingKeys_eq_first_satisfied, Hkeys. by apply first_satisfied_masked. }
  split; [done|]. split.
  - apply not_true_is_false. rewrite IsValid_true_iff. intros [_ Hne]. done.
  - by rewrite MakeEqualPredicate_equal_terms, Hu.
Qed.

Lemma empty_group_masks_later_groups_witness :
  satisfied (entries Samples.masked_store (data Samples.masked)) ["email"]
  ∧ usingKeys Samples.masked_store Samples.masked = []
  ∧ IsValid Samples.masked_store Samples.masked = false
  ∧ MakeEqualPredicate Samples.masked_store Samples.masked = mkPredicate And [].
Proof.
  split.
  - repeat constructor. exists (VString "carol@example.com"). split; [|done].
    vm_compute. reflexivity.
  - apply (empty_group_masks_later_groups Samples.masked_store Samples.masked
             [["username"]] [["email"]]).
    + reflexivity.
    + repeat constructor. intros _ Hs. apply Forall_cons in Hs as [(v & Hv & _) _].
      vm_compute in Hv. discriminate.
Defined.

(** ** The store: copies and writes *)

Lemma map_assign_lookup (h : store) (l l' : loc) (k : string) (v : value) :
  map_assign h l k v !! l'
  = if decide (l = l') then insert k v <$> h !! l' else h !! l'.
Proof.
  unfold map_assign. destruct (decide (l = l')) as [->|Hne].
  - by rewrite lookup_alter_eq.
  - by rewrite lookup_alter_ne.
Qed.

Lemma apply_write_other (l l' : loc) (h : store) (w : map_write) :
  l ≠ l' → apply_write l h w !! l' = h !! l'.
Proof.
  intros Hne. destruct w; unfold apply_write, map_assign, map_delete;
    by rewrite lookup_alter_ne.
Qed.

Lemma apply_writes_other (l l' : loc) (h : store) (ws : list map_write) :
  l ≠ l' → apply_writes l h ws !! l' = h !! l'.
Proof.
  intros Hne. unfold apply_writes. revert h.
  induction ws as [|w ws IH]; intros h; simpl; [done|].
  by rewrite IH, apply_write_other.
Qed.

Lemma foldl_insert_entries (l : list (string * value)) (m : gomap) :
  NoDup l.*1 →
  foldl (λ m' kv, <[kv.1 := kv.2]> m') m l = list_to_map l ∪ m.
Proof.
  revert m. induction l as [|[k v] l IH]; intros m Hnd.
  - simpl. by rewrite (left_id_L ∅ (∪)).
  - rewrite fmap_cons in Hnd. apply NoDup_cons in Hnd as [Hk Hnd].
    cbn [foldl list_to_map foldr fst snd]. rewrite IH by done.
    rewrite <- insert_union_l. symmetry. apply insert_union_r.
    by apply not_elem_of_list_to_map_1.
Qed.

Lemma foldl_map_assign_fresh (c : loc) (l : list (string * value)) (m : gomap)
    (h : store) :
  foldl (λ h' kv, map_assign h' c kv.1 kv.2) (<[c := m]> h) l
  = <[c := foldl (λ m' kv, <[kv.1 := kv.2]> m') m l]> h.
Proof.
  revert m. induction l as [|[k v] l IH]; intros m; simpl; [done|].
  rewrite <- IH. f_equal. unfold map_assign. by rewrite alter_insert_eq.
Qed.

(** [GetData] allocates one object holding the entries of [a.data]. *)
Lemma GetData_eq (h : store) (a : AuthData) :
  GetData h a = (<[fresh (dom h) := entries h (data a)]> h, MapAt (fresh (dom h))).
Proof.
  unfold GetData. f_equal. rewrite foldl_map_assign_fresh. f_equal.
  rewrite foldl_insert_entries by apply NoDup_fst_map_to_list.
  by rewrite list_to_map_to_list, (right_id_L ∅ (∪)).
Qed.

Lemma fresh_not_allocated (h : store) : h !! fresh (dom h) = None.
Proof. apply not_elem_of_dom. apply is_fresh. Qed.

(** ** The methods read the store only through [a.data] *)

Lemma IsEmpty_scan_ext (h h' : store) (a : AuthData) (ks : list string) :
  entries h (data a) = entries h' (data a) →
  IsEmpty_scan h a ks = IsEmpty_scan h' a ks.
Proof.
  intros Heq. induction ks as [|k ks IH]; simpl; [done|].
  unfold isFieldEmpty. by rewrite Heq, IH.
Qed.

Lemma AuthData_methods_ext (h h' : store) (a : AuthData) :
  entries h (data a) = entries h' (data a) →
  IsValid h a = IsValid h' a
  ∧ IsEmpty h a = IsEmpty h' a
  ∧ usingKeys h a = usingKeys h' a
  ∧ MakeEqualPredicate h a = MakeEqualPredicate h' a.
Proof.
  intros Heq.
  assert (usingKeys h a = usingKeys h' a) as Hu.
  { by rewrite !usingKeys_eq_first_satisfied, Heq. }
  split; [|split; [|split; [done|]]].
  - apply Bool.eq_true_iff_eq. by rewrite !IsValid_true_iff, Heq, Hu.
  - unfold IsEmpty. rewrite Heq. by rewrite (IsEmpty_scan_ext h h').
  - by rewrite !MakeEqualPredicate_equal_terms, Heq, Hu.
Qed.

(** C6. [GetData] returns a new map with the entries of the internal data
    map. Whatever entries a caller then adds, removes or overwrites through
    the returned map, every object that existed before the call is as it
    was, and so is what [IsValid], [IsEmpty], [usingKeys] and
    [MakeEqualPredicate] return. *)
Theorem GetData_defensive_copy (h : store) (a : AuthData) (ws : list map_write) :
  allocated h (data a) →
  ∃ c : loc,
    (GetData h a).2 = MapAt c
    ∧ h !! c = None
    ∧ entries (GetData h a).1 (MapAt c) = entries h (data a)
    ∧ let h' := apply_writes c (GetData h a).1 ws in
      (∀ l, is_Some (h !! l) → h' !! l = h !! l)
      ∧ entries h' (data a) = entries h (data a)
      ∧ IsValid h' a = IsValid h a
      ∧ IsEmpty h' a = IsEmpty h a
      ∧ usingKeys h' a = usingKeys h a
      ∧ MakeEqualPredicate h' a = MakeEqualPredicate h a.
Proof.
  intros Halloc. exists (fresh (dom h)). rewrite GetData_eq. simpl.
  pose proof (fresh_not_allocated h) as Hfresh.
  split; [done|]. split; [done|]. split; [by rewrite lookup_insert_eq|].
  assert (∀ l, is_Some (h !! l) →
    apply_writes (fresh (dom h)) (<[fresh (dom h) := entries h (data a)]> h) ws !! l
    = h !! l) as Hold.
  { intros l [m Hm]. assert (fresh (dom h) ≠ l) as Hne by congruence.
    by rewrite apply_writes_other, lookup_insert_ne. }
  assert (entries
            (apply_writes (fresh (dom h)) (<[fresh (dom h) := entries h (data a)]> h) ws)
            (data a) = entries h (data a)) as Heq.
  { destruct (data a) as [|l]; simpl in *; [done|]. by rewrite Hold. }
  split; [done|]. split; [done|]. by apply AuthData_methods_ext.
Qed.

Lemma GetData_defensive_copy_witness :
  ∃ c : loc,
    (GetData Samples.alice_store Samples.alice).2 = MapAt c
    ∧ IsValid
        (apply_writes c (GetData Samples.alice_store Samples.alice).1
           [Assign "username" (VString "mallory"); Delete "email";
            Assign "nickname" (VString "m")])
        Samples.alice
      = IsValid Samples.alice_store Samples.alice.
Proof.
  destruct (GetData_defensive_copy Samples.alice_store Samples.alice
              [Assign "username" (VString "mallory"); Delete "email";
               Assign "nickname" (VString "m")]) as (c & Hc & _ & _ & _ & _ & Hv & _).
  - simpl. vm_compute. eauto.
  - exists c. split; [exact Hc | exact Hv].
Defined.

(** ** [UpdateFromRecordData] *)

Lemma UpdateFromRecordData_loop (l : loc) (rdata : mapref) (DR : gomap)
    (ks : list string) (h : store) (D : gomap) :
  h !! l = Some D →
  (∀ k, index (entries h rdata) k = index DR k) →
  let h' := foldl (λ h' k, map_assign h' l k (index (entries h' rdata) k)) h ks in
  (∃ D', h' !! l = Some D'
         ∧ ∀ k, D' !! k = if decide (k ∈ ks) then Some (index DR k) else D !! k)
  ∧ (∀ l', l' ≠ l → h' !! l' = h !! l').
Proof.
  revert h D. induction ks as [|k0 ks IH]; intros h D Hl Hread; cbn [foldl].
  - split; [|done]. exists D. split; [done|]. intros k.
    rewrite decide_False; [done|apply not_elem_of_nil].
  - set (h1 := map_assign h l k0 (index (entries h rdata) k0)).
    assert (h1 !! l = Some (<[k0 := index DR k0]> D)) as Hl1.
    { unfold h1. rewrite map_assign_lookup, decide_True by done.
      by rewrite Hl, Hread. }
    assert (∀ l', l' ≠ l → h1 !! l' = h !! l') as Hother.
    { intros l' Hne. unfold h1. by rewrite map_assign_lookup, decide_False. }
    assert (∀ k, index (entries h1 rdata) k = index DR k) as Hread1.
    { intros k. destruct rdata as [|l']; [apply (Hread k)|].
      destruct (decide (l' = l)) as [->|Hne].
      - simpl. rewrite Hl1. simpl. unfold index at 1.
        destruct (decide (k0 = k)) as [->|Hk].
        + by rewrite lookup_insert_eq.
        + rewrite lookup_insert_ne by done. specialize (Hread k).
          simpl in Hread. by rewrite Hl in Hread.
      - simpl. rewrite Hother by done. apply (Hread k). }
    destruct (IH h1 _ Hl1 Hread1) as [(D' & HD' & Hlook) Hframe].
    split.
    + exists D'. split; [done|]. intros k. rewrite Hlook.
      destruct (decide (k ∈ ks)) as [Hin|Hnin].
      * rewrite decide_True; [done|by apply list_elem_of_further].
      * destruct (decide (k0 = k)) as [->|Hk].
        -- rewrite lookup_insert_eq.
           rewrite decide_True; [done|apply list_elem_of_here].
        -- rewrite lookup_insert_ne by done. rewrite decide_False; [done|].
           rewrite elem_of_cons. intros [?|?]; congruence.
    + intros l' Hne. by rewrite Hframe, Hother.
Qed.

(** On a data map that exists, [UpdateFromRecordData] returns, reads as
    [R[k]] at every [k] of [allKeys] afterwards, and leaves every other entry
    and every other object as it was. The record data may be the data map
    itself. *)
Lemma UpdateFromRecordData_sets_allKeys (h : store) (a : AuthData)
    (rdata : mapref) (l : loc) (D : gomap) :
  data a = MapAt l →
  h !! l = Some D →
  ∃ (h' : store) (D' : gomap),
    UpdateFromRecordData h a rdata = (h', Returns tt)
    ∧ h' !! l = Some D'
    ∧ (∀ k, k ∈ allKeys a → D' !! k = Some (index (entries h rdata) k))
    ∧ (∀ k, k ∉ allKeys a → D' !! k = D !! k)
    ∧ (∀ l', l' ≠ l → h' !! l' = h !! l').
Proof.
  intros Hdata Hl. unfold UpdateFromRecordData. rewrite Hdata.
  destruct (UpdateFromRecordData_loop l rdata (entries h rdata) (allKeys a) h D)
    as [(D' & HD' & Hlook) Hframe]; [done|done|].
  eexists _, D'. split; [done|]. split; [done|]. split; [|split; [|done]].
  - intros k Hk. by rewrite Hlook, decide_True.
  - intros k Hk. by rewrite Hlook, decide_False.
Qed.

(** C7, at the failing input. An AuthData built over the nil map, with the
    groups [[username], [email]], is updated from the record
    [{"username": "dave"}]: the call panics on its first assignment and no
    attribute is set. *)
Theorem UpdateFromRecordData_nil_map_panics :
  UpdateFromRecordData Samples.record_store Samples.no_map (MapAt 2)
  = (Samples.record_store, Panics "assignment to entry in nil map")
  ∧ index (entries Samples.record_store (MapAt 2)) "username" = VString "dave"
  ∧ "username" ∈ allKeys Samples.no_map.
Proof.
  split; [vm_compute; reflexivity|]. split; [vm_compute; reflexivity|].
  apply elem_of_allKeys. exists ["username"]. split.
  - apply list_elem_of_here.
  - apply list_elem_of_here.
Qed.

(** ** AuthInfo: passwords and the token watermark *)

Lemma list_byte_of_string_inj (s1 s2 : string) :
  String.list_byte_of_string s1 = String.list_byte_of_string s2 → s1 = s2.
Proof.
  intros Heq.
  rewrite <- (String.string_of_list_byte_of_string s1).
  rewrite <- (String.string_of_list_byte_of_string s2).
  by rewrite Heq.
Qed.

Lemma keyed_accepts_generated : accepts_generated keyed_bcrypt.
Proof.
  intros pw cost salt hash. simpl. unfold keyed_generate.
  destruct (Nat.ltb 72 (length pw)); [done|]. intros [= <-]. simpl.
  by rewrite decide_True.
Qed.

Lemma keyed_rejects_empty_hash : rejects_empty_hash keyed_bcrypt.
Proof. intros pw. simpl. done. Qed.

Lemma transparent_rejects_empty_hash : rejects_empty_hash transparent_bcrypt.
Proof. intros pw. simpl. done. Qed.

Section AuthInfo_props.
Context {B : Bcrypt}.

Lemma SetPassword_success (env : Env) (password : string) (info : AuthInfo)
    (hash : bytes) :
  GenerateFromPassword (String.list_byte_of_string password) DefaultCost
                       (entropy env) = inr hash →
  SetPassword env password info
  = ({| ID := ID info; HashedPassword := hash; Roles := Roles info;
        ProviderInfo := ProviderInfo info;
        TokenValidSince := Some (timeNow env);
        LastSeenAt := LastSeenAt info |}, Returns tt).
Proof. intros Hgen. unfold SetPassword. by rewrite Hgen. Qed.

(** A call that returns has stored the hash the primitive produced. *)
Lemma SetPassword_returns_hashed (env : Env) (password : string) (info : AuthInfo) :
  (SetPassword env password info).2 = Returns tt →
  ∃ hash,
    GenerateFromPassword (String.list_byte_of_string password) DefaultCost
                         (entropy env) = inr hash
    ∧ HashedPassword (SetPassword env password info).1 = hash.
Proof.
  unfold SetPassword.
  destruct (GenerateFromPassword _ _ _) as [err|hash]; simpl; [done|eauto].
Qed.
End AuthInfo_props.

Section AuthInfo_comparison.
Context {B : Bcrypt}.

(** [IsSamePassword] is the primitive's comparison with the stored hash. *)
Lemma IsSamePassword_true_iff (info : AuthInfo) (p : string) :
  IsSamePassword info p = true
  ↔ CompareHashAndPassword (HashedPassword info) (String.list_byte_of_string p)
    = None.
Proof.
  unfold IsSamePassword.
  destruct (CompareHashAndPassword _ _); split; done.
Qed.
End AuthInfo_comparison.

(** C4, as amended. When hashing the new password succeeds, [SetPassword(new)]
    returns and the stored hash is the new one, whatever was stored before.
    [IsSamePassword(new)] is then true, given a primitive that accepts the
    password a hash was generated from, and for every other string
    [IsSamePassword] is the primitive's comparison of that string with the
    new hash: an old password is rejected exactly when the primitive tells it
    apart from the new one. The watermark becomes the clock reading of the
    call: it is strictly later than before exactly when there was no
    watermark or an earlier one. *)
Theorem SetPassword_rotates_credential (B : Bcrypt) (env : Env) (info : AuthInfo)
    (new : string) (hash : bytes) :
  accepts_generated B →
  GenerateFromPassword (String.list_byte_of_string new) DefaultCost (entropy env)
  = inr hash →
  let info' := (SetPassword env new info).1 in
  (SetPassword env new info).2 = Returns tt
  ∧ HashedPassword info' = hash
  ∧ IsSamePassword info' new = true
  ∧ (∀ old, IsSamePassword info' old = false
            ↔ CompareHashAndPassword hash (String.list_byte_of_string old) ≠ None)
  ∧ TokenValidSince info' = Some (timeNow env)
  ∧ (watermark_lt (TokenValidSince info) (TokenValidSince info')
     ↔ match TokenValidSince info with
        | None => True
        | Some t => (t < timeNow env)%Z
        end).
Proof.
  intros Hlaw Hgen info'. unfold info'.
  rewrite (SetPassword_success _ _ _ _ Hgen). cbn [fst snd HashedPassword TokenValidSince].
  split; [done|]. split; [done|]. split; [|split; [|split; [done|]]].
  - apply IsSamePassword_true_iff. cbn [HashedPassword]. by apply (Hlaw _ _ _ _ Hgen).
  - intros old. rewrite <- not_true_iff_false, IsSamePassword_true_iff. done.
  - unfold watermark_lt. destruct (TokenValidSince info); done.
Qed.

Lemma SetPassword_rotates_credential_witness :
  let info' := (@SetPassword keyed_bcrypt Samples.clock "new"
                  (NewAnonymousAuthInfo "u1")).1 in
  @IsSamePassword keyed_bcrypt info' "new" = true
  ∧ @IsSamePassword keyed_bcrypt info' "old" = false
  ∧ watermark_lt None (TokenValidSince info').
Proof.
  destruct (SetPassword_rotates_credential keyed_bcrypt Samples.clock
              (NewAnonymousAuthInfo "u1") "new"
              (Byte.x24 :: bcrypt_key (String.list_byte_of_string "new"))
              keyed_accepts_generated)
    as (_ & _ & Hnew & Hold & _ & Hlt).
  - vm_compute. reflexivity.
  - split; [exact Hnew|]. split; [|apply Hlt; exact I].
    apply Hold. vm_compute. discriminate.
Defined.

(** C4, as stated, fails twice, each time with a primitive that accepts the
    password a hash was generated from and rejects the empty hash, and with a
    hash that succeeds. After [SetPassword] with a password of 72 bytes, the
    different password of 73 bytes is still the same password to
    [IsSamePassword]. And a principal whose watermark is later than the clock
    reading has an earlier watermark after [SetPassword]. *)
Lemma SetPassword_old_accepted_and_watermark_earlier :
  (¬ ∀ (B : Bcrypt) (env : Env) (info : AuthInfo) (old new : string) (hash : bytes),
       accepts_generated B →
       rejects_empty_hash B →
       old ≠ new →
       GenerateFromPassword (String.list_byte_of_string new) DefaultCost
                            (entropy env) = inr hash →
       IsSamePassword (SetPassword env new info).1 old = false)
  ∧ (¬ ∀ (B : Bcrypt) (env : Env) (info : AuthInfo) (new : string) (hash : bytes),
       accepts_generated B →
       rejects_empty_hash B →
       GenerateFromPassword (String.list_byte_of_string new) DefaultCost
                            (entropy env) = inr hash →
       watermark_lt (TokenValidSince info)
                    (TokenValidSince (SetPassword env new info).1)).
Proof.
  split.
  - intros Hclaim.
    specialize (Hclaim keyed_bcrypt Samples.clock (NewAnonymousAuthInfo "u1")
                  Samples.long_password MoreSamples.password72
                  (Byte.x24 :: bcrypt_key
                     (String.list_byte_of_string MoreSamples.password72))
                  keyed_accepts_generated keyed_rejects_empty_hash).
    assert (@IsSamePassword keyed_bcrypt
              (@SetPassword keyed_bcrypt Samples.clock MoreSamples.password72
                 (NewAnonymousAuthInfo "u1")).1 Samples.long_password = true) as Hsame.
    { vm_compute. reflexivity. }
    rewrite Hclaim in Hsame.
    + discriminate.
    + discriminate.
    + vm_compute. reflexivity.
  - intros Hclaim.
    specialize (Hclaim keyed_bcrypt Samples.clock Samples.ahead "new"
                  (Byte.x24 :: bcrypt_key (String.list_byte_of_string "new"))
                  keyed_accepts_generated keyed_rejects_empty_hash).
    assert (¬ watermark_lt (TokenValidSince Samples.ahead)
              (TokenValidSince
                 (@SetPassword keyed_bcrypt Samples.clock "new" Samples.ahead).1))
      as Hearlier.
    { vm_compute. discriminate. }
    apply Hearlier, Hclaim. vm_compute. reflexivity.
Qed.

(** C8. An anonymous principal has its ID and an empty hashed password, and
    no password is the same as its password: the comparison is made against
    the empty hash, which the primitive rejects. *)
Theorem NewAnonymousAuthInfo_never_same_password (B : Bcrypt) (id p : string) :
  rejects_empty_hash B →
  ID (NewAnonymousAuthInfo id) = id
  ∧ HashedPassword (NewAnonymousAuthInfo id) = []
  ∧ IsSamePassword (NewAnonymousAuthInfo id) p = false.
Proof.
  intros Hlaw. split; [done|]. split; [done|].
  unfold IsSamePassword. simpl.
  destruct (CompareHashAndPassword [] (String.list_byte_of_string p)) eqn:He;
    [done|]. by apply Hlaw in He.
Qed.

Lemma NewAnonymousAuthInfo_never_same_password_witness :
  @IsSamePassword transparent_bcrypt (NewAnonymousAuthInfo "u1") "" = false.
Proof.
  apply (NewAnonymousAuthInfo_never_same_password transparent_bcrypt "u1" ""
           transparent_rejects_empty_hash).
Defined.

(** C9. When the hashing primitive returns an error, [SetPassword] panics
    with its message and the receiver is as it was before the call, hashed
    password and watermark included; [NewAuthInfo] panics likewise and
    returns no principal. *)
Theorem SetPassword_hash_failure_panics (B : Bcrypt) (env : Env)
    (password : string) (info : AuthInfo) (err : string) :
  GenerateFromPassword (String.list_byte_of_string password) DefaultCost
                       (entropy env) = inl err →
  SetPassword env password info
  = (info, Panics "authinfo: Failed to hash password")
  ∧ (∀ id, NewAuthInfo id env password
           = Panics "authinfo: Failed to hash password").
Proof.
  intros Hgen. unfold NewAuthInfo, SetPassword. rewrite Hgen. done.
Qed.

Lemma SetPassword_hash_failure_panics_witness :
  @SetPassword transparent_bcrypt Samples.clock Samples.long_password Samples.ahead
  = (Samples.ahead, Panics "authinfo: Failed to hash password").
Proof.
  apply (SetPassword_hash_failure_panics transparent_bcrypt Samples.clock
           Samples.long_password Samples.ahead
           "bcrypt: password length exceeds 72 bytes").
  vm_compute. reflexivity.
Defined.

(** ** Field access update handler *)

Lemma Handle_keeps_store (s : RecordStore) (req : FieldAccessUpdateRequestPayload) :
  Handle s req = (s, (None, None)).
Proof. reflexivity. Qed.

(** C5, at the failing input. The documented request, with the rule for
    [_user_id:johndoe] on [note.content], is posted to a store with no rule:
    it decodes to the field-less payload, [Handle] answers with no response
    and no error, and the table is the prior, empty one, not the table of
    the request. Whatever a reader computes from the table is what it
    computed before the call. *)
Theorem FieldAccessUpdate_keeps_prior_table :
  DecodeRequest (inr Samples.documented_body)
  = (Some mkFieldAccessUpdateRequestPayload, None)
  ∧ Handle Samples.no_rules mkFieldAccessUpdateRequestPayload
    = (Samples.no_rules, (None, None))
  ∧ fieldACL (Handle Samples.no_rules mkFieldAccessUpdateRequestPayload).1
    ≠ access Samples.documented_body
  ∧ (∀ (A : Type) (Resolve : list FieldACLEntry → A)
       (s : RecordStore) (req : FieldAccessUpdateRequestPayload),
       Resolve (fieldACL (Handle s req).1) = Resolve (fieldACL s)).
Proof.
  split; [done|]. split; [done|]. split; [|done].
  simpl. discriminate.
Qed.

(** ** The specification's sample evaluations *)

Example usingKeys_overlapping_groups :
  usingKeys Samples.overlap_store Samples.overlap = ["email"; "username"].
Proof. vm_compute. reflexivity. Qed.

Example IsEmpty_samples :
  IsEmpty ∅ (NewAuthData NilMap Samples.username_or_email) = true
  ∧ IsEmpty {[ 1%positive := ∅ ]} (NewAuthData (MapAt 1) Samples.username_or_email) = true
  ∧ IsEmpty {[ 1%positive := {[ "username" := VNil ]} ]}
            (NewAuthData (MapAt 1) Samples.username_or_email) = true
  ∧ IsEmpty {[ 1%positive := {[ "username" := VString "a" ]} ]}
            (NewAuthData (MapAt 1) Samples.username_or_email) = false.
Proof. repeat split; vm_compute; reflexivity. Qed.

Example NewAuthInfo_sample :
  @NewAuthInfo transparent_bcrypt "u1" Samples.clock "secret"
  = Returns {| ID := "u1";
               HashedPassword := Byte.x24 :: String.list_byte_of_string "secret";
               Roles := []; ProviderInfo := None;
               TokenValidSince := Some 1000%Z; LastSeenAt := None |}.
Proof. vm_compute. reflexivity. Qed.

(** * Further properties of the package *)

(** ** [IsEmpty] and validity *)

Lemma IsEmpty_scan_true (h : store) (a : AuthData) (ks : list string) :
  IsEmpty_scan h a ks = true
  ↔ Forall (λ k, index (entries h (data a)) k = VNil) ks.
Proof.
  induction ks as [|k ks IH]; cbn [IsEmpty_scan].
  - split; [constructor|done].
  - rewrite Forall_cons, <- IH. unfold isFieldEmpty.
    destruct (is_nil (index (entries h (data a)) k)) eqn:Hn; simpl.
    + apply is_nil_true in Hn. tauto.
    + apply is_nil_false in Hn. split; [done|tauto].
Qed.

Lemma index_nil_iff (D : gomap) (k : string) :
  index D k = VNil ↔ ∀ v, D !! k = Some v → v = VNil.
Proof.
  unfold index. destruct (D !! k) as [v|]; simpl.
  - split; [by intros -> v' [= <-]|eauto].
  - split; [by intros _ v' ?|done].
Qed.

Lemma IsEmpty_true_iff (h : store) (a : AuthData) :
  IsEmpty h a = true ↔ ∀ k v, entries h (data a) !! k = Some v → v = VNil.
Proof.
  unfold IsEmpty. destruct (Nat.eqb_spec (size (entries h (data a))) 0) as [H0|H0].
  - apply map_size_empty_iff in H0. rewrite H0. split; [|done].
    intros _ k v Hk. by rewrite lookup_empty in Hk.
  - rewrite IsEmpty_scan_true, Forall_forall. split.
    + intros Hall k v Hk. assert (k ∈ range_keys (entries h (data a))) as Hin.
      { apply elem_of_range_keys. eauto. }
      apply Hall in Hin. by apply (index_nil_iff (entries h (data a)) k).
    + intros Hall k _. apply index_nil_iff. apply Hall.
Qed.

Lemma IsEmpty_false_iff (h : store) (a : AuthData) :
  IsEmpty h a = false ↔ ∃ k, field_set (entries h (data a)) k.
Proof.
  rewrite <- not_true_iff_false, IsEmpty_true_iff. split.
  - intros Hn. apply dec_stable. intros Hex. apply Hn. intros k v Hk.
    destruct (decide (v = VNil)) as [|Hv]; [done|]. exfalso. apply Hex.
    exists k, v. done.
  - intros (k & v & Hk & Hv) Hall. apply Hv. by apply (Hall k).
Qed.

(** X1. [IsEmpty] is true exactly when every entry of the data map holds
    nil, the map without entries and the nil map included; it is false
    exactly when some field holds a non-nil value. *)
Theorem IsEmpty_iff_all_nil (h : store) (a : AuthData) :
  (IsEmpty h a = true ↔ ∀ k v, entries h (data a) !! k = Some v → v = VNil)
  ∧ (IsEmpty h a = false ↔ ∃ k, field_set (entries h (data a)) k).
Proof. split; [apply IsEmpty_true_iff|apply IsEmpty_false_iff]. Qed.

Lemma first_satisfied_no_field (D : gomap) (G : list (list string)) :
  (∀ k, ¬ field_set D k) → first_satisfied D G = [].
Proof.
  intros Hno. induction G as [|g G IH]; cbn [first_satisfied]; [done|].
  destruct (decide (satisfied D g)) as [Hs|Hs]; [|done].
  destruct g as [|k g]; [done|]. apply Forall_cons in Hs as [Hk _].
  by apply Hno in Hk.
Qed.

(** X2. Data that is empty is never valid: when [IsEmpty] is true,
    [usingKeys] returns no key whatever the groups are, [IsValid] is false
    and [MakeEqualPredicate] is the [And] over no child. *)
Theorem IsEmpty_never_valid (h : store) (a : AuthData) :
  IsEmpty h a = true →
  usingKeys h a = []
  ∧ IsValid h a = false
  ∧ MakeEqualPredicate h a = mkPredicate And [].
Proof.
  intros He. assert (usingKeys h a = []) as Hu.
  { rewrite usingKeys_eq_first_satisfied. apply first_satisfied_no_field.
    intros k (v & Hk & Hv). apply Hv.
    by apply (proj1 (IsEmpty_true_iff h a) He k). }
  split; [done|]. split.
  - apply not_true_is_false. rewrite IsValid_true_iff. by intros [_ ?].
  - by rewrite MakeEqualPredicate_equal_terms, Hu.
Qed.

Lemma IsEmpty_never_valid_witness :
  usingKeys MoreSamples.blank_store MoreSamples.blank = []
  ∧ IsValid MoreSamples.blank_store MoreSamples.blank = false
  ∧ MakeEqualPredicate MoreSamples.blank_store MoreSamples.blank
    = mkPredicate And [].
Proof.
  apply (IsEmpty_never_valid MoreSamples.blank_store MoreSamples.blank).
  vm_compute. reflexivity.
Defined.

(** X3. Valid data gives a predicate that constrains: when [IsValid] is
    true, [usingKeys] is a non-empty declared group, each of its fields is one
    of [allKeys] and holds a non-nil value, and [MakeEqualPredicate] has one
    [Equal] child per field of that group, none skipped. *)
Theorem IsValid_predicate_constrains (h : store) (a : AuthData) :
  IsValid h a = true →
  let D := entries h (data a) in
  ∃ g : list string,
    g ∈ keys a ∧ g ≠ [] ∧ usingKeys h a = g
    ∧ (∀ k, k ∈ g → k ∈ allKeys a ∧ index D k ≠ VNil)
    ∧ MakeEqualPredicate h a = mkPredicate And (equal_term D <$> g)
    ∧ length (Children (MakeEqualPredicate h a)) = length g.
Proof.
  intros Hv D. apply IsValid_true_iff in Hv as [_ Hne].
  rewrite usingKeys_eq_first_satisfied in Hne. fold D in Hne.
  rewrite MakeEqualPredicate_equal_terms, usingKeys_eq_first_satisfied. fold D.
  destruct (first_satisfied_cases D (keys a))
    as [(pre & g & post & Hk & _ & Hs & Heq)|[_ Heq]]; [|done].
  rewrite Heq in *. exists g.
  assert (g ∈ keys a) as Hin.
  { rewrite Hk. apply elem_of_app. right. apply list_elem_of_here. }
  split; [done|]. split; [done|]. split; [done|]. split.
  - intros k Hkg. split.
    + apply elem_of_allKeys. eauto.
    + apply field_set_not_nil. unfold satisfied in Hs.
      rewrite Forall_forall in Hs. by apply Hs.
  - rewrite equal_terms_satisfied by done. split; [done|].
    simpl. by rewrite length_fmap.
Qed.

Lemma IsValid_predicate_constrains_witness :
  ∃ g : list string,
    g ≠ [] ∧ usingKeys Samples.alice_store Samples.alice = g
    ∧ length (Children (MakeEqualPredicate Samples.alice_store Samples.alice))
      = length g.
Proof.
  destruct (IsValid_predicate_constrains Samples.alice_store Samples.alice)
    as (g & _ & Hne & Hu & _ & _ & Hlen).
  - vm_compute. reflexivity.
  - exists g. split; [exact Hne|]. split; [exact Hu|exact Hlen].
Defined.

(** X4. [allKeys] lists every field of the groups once, however often the
    groups repeat it, and is empty exactly when every group is. *)
Theorem allKeys_each_field_once (a : AuthData) :
  NoDup (allKeys a)
  ∧ (∀ g k, g ∈ keys a → k ∈ g → k ∈ allKeys a)
  ∧ (allKeys a = [] ↔ Forall (λ g, g = []) (keys a)).
Proof.
  split; [apply allKeys_NoDup|]. split.
  - intros g k Hg Hk. apply elem_of_allKeys. eauto.
  - rewrite Forall_forall. split.
    + intros Hnil g Hg. destruct g as [|k g]; [done|].
      assert (k ∈ allKeys a) as Hin.
      { apply elem_of_allKeys. exists (k :: g). split; [done|].
        apply list_elem_of_here. }
      rewrite Hnil in Hin. by apply elem_of_nil in Hin.
    + intros Hall. apply elem_of_nil_inv. intros k Hk.
      apply elem_of_allKeys in Hk as (g & Hg & Hkg).
      rewrite (Hall g Hg) in Hkg. by apply elem_of_nil in Hkg.
Qed.

Lemma first_satisfied_agree (D1 D2 : gomap) (G : list (list string)) :
  (∀ g k, g ∈ G → k ∈ g → field_set D1 k ↔ field_set D2 k) →
  first_satisfied D1 G = first_satisfied D2 G.
Proof.
  induction G as [|g G IH]; intros Hagree; cbn [first_satisfied]; [done|].
  assert (satisfied D1 g ↔ satisfied D2 g) as Hs.
  { unfold satisfied. rewrite !Forall_forall. split; intros Hall k Hk.
    - apply (Hagree g k); [apply list_elem_of_here|done|by apply Hall].
    - apply (Hagree g k); [apply list_elem_of_here|done|by apply Hall]. }
  rewrite IH.
  - destruct (decide (satisfied D1 g)), (decide (satisfied D2 g)); tauto.
  - intros g' k Hg'. apply Hagree. by apply list_elem_of_further.
Qed.

(** X5. [usingKeys] and [IsEmpty] look only at which fields hold a non-nil
    value: two data maps with the same such fields give the same group and
    the same emptiness, whatever the values are and whether a nil field is
    stored or missing. *)
Theorem usingKeys_depends_on_non_nil_fields
    (h1 h2 : store) (a1 a2 : AuthData) :
  keys a1 = keys a2 →
  (∀ k, field_set (entries h1 (data a1)) k ↔ field_set (entries h2 (data a2)) k) →
  usingKeys h1 a1 = usingKeys h2 a2 ∧ IsEmpty h1 a1 = IsEmpty h2 a2.
Proof.
  intros Hkeys Hagree. split.
  - rewrite !usingKeys_eq_first_satisfied, Hkeys.
    apply first_satisfied_agree. intros g k _ _. apply Hagree.
  - apply Bool.eq_true_iff_eq.
    assert (∀ h a, IsEmpty h a = true ↔ ¬ ∃ k, field_set (entries h (data a)) k)
      as Hchar.
    { intros h a. rewrite <- IsEmpty_false_iff. symmetry.
      apply not_false_iff_true. }
    rewrite !Hchar. split; intros Hn (k & Hk); apply Hn; exists k; by apply Hagree.
Qed.

Lemma usingKeys_depends_on_non_nil_fields_witness :
  usingKeys Samples.alice_store Samples.alice
  = usingKeys {[ 1%positive := {[ "username" := VString "zed" ]} ]} Samples.alice
  ∧ IsEmpty Samples.alice_store Samples.alice
    = IsEmpty {[ 1%positive := {[ "username" := VString "zed" ]} ]} Samples.alice.
Proof.
  apply (usingKeys_depends_on_non_nil_fields Samples.alice_store
           {[ 1%positive := {[ "username" := VString "zed" ]} ]}
           Samples.alice Samples.alice).
  - reflexivity.
  - intros k. rewrite !field_set_not_nil.
    change (entries Samples.alice_store (data Samples.alice))
      with (<[ "username" := VString "alice" ]> ({[ "email" := VNil ]} : gomap)).
    change (entries {[ 1%positive := {[ "username" := VString "zed" ]} ]}
                    (data Samples.alice))
      with ({[ "username" := VString "zed" ]} : gomap).
    unfold index. destruct (decide (k = "username")) as [->|Hne].
    + rewrite lookup_insert_eq, lookup_singleton_eq. simpl.
      split; intros _; discriminate.
    + rewrite lookup_insert_ne by congruence.
      rewrite (lookup_singleton_ne "username") by congruence.
      destruct (decide (k = "email")) as [->|Hne'].
      * rewrite lookup_singleton_eq. simpl. tauto.
      * rewrite lookup_singleton_ne by congruence. simpl. tauto.
Defined.

(** ** [UpdateFromRecordData]: refresh from a stored record *)

(** X6. On an AuthData whose data map exists, [UpdateFromRecordData] returns
    normally; afterwards every field of [allKeys] is present and reads as the
    record's value for it, nil when the record has none; every other entry
    of the data map and every other object are as before. The record may be
    the data map itself. *)
Theorem UpdateFromRecordData_refreshes_fields (h : store) (a : AuthData)
    (rdata : mapref) (l : loc) (D : gomap) :
  data a = MapAt l →
  h !! l = Some D →
  (UpdateFromRecordData h a rdata).2 = Returns tt
  ∧ ∃ D' : gomap,
      (UpdateFromRecordData h a rdata).1 !! l = Some D'
      ∧ (∀ k, k ∈ allKeys a → D' !! k = Some (index (entries h rdata) k))
      ∧ (∀ k, k ∉ allKeys a → D' !! k = D !! k)
      ∧ (∀ l', l' ≠ l → (UpdateFromRecordData h a rdata).1 !! l' = h !! l').
Proof.
  intros Hdata Hl.
  destruct (UpdateFromRecordData_sets_allKeys h a rdata l D Hdata Hl)
    as (h' & D' & -> & HD' & Hin & Hout & Hframe).
  simpl. split; [done|]. exists D'. done.
Qed.

Lemma UpdateFromRecordData_refreshes_fields_witness :
  ∃ D' : gomap,
    (UpdateFromRecordData MoreSamples.signup_store MoreSamples.signup (MapAt 2)).1
      !! 1%positive = Some D'
    ∧ D' !! "username" = Some (VString "eve")
    ∧ D' !! "nickname" = Some (VString "e").
Proof.
  destruct (UpdateFromRecordData_refreshes_fields MoreSamples.signup_store
              MoreSamples.signup (MapAt 2) 1%positive
              (<[ "username" := VString "Eve" ]> {[ "nickname" := VString "e" ]}))
    as (_ & D' & HD' & Hin & Hout & _).
  - reflexivity.
  - vm_compute. reflexivity.
  - exists D'. split; [exact HD'|]. split.
    + rewrite (Hin "username").
      * vm_compute. reflexivity.
      * apply elem_of_allKeys. exists ["username"]. split; apply list_elem_of_here.
    + rewrite (Hout "nickname").
      * vm_compute. reflexivity.
      * intros Hk. apply elem_of_allKeys in Hk as (g & Hg & Hkg).
        vm_compute in Hg. 
        apply elem_of_cons in Hg as [->|Hg].
        { apply elem_of_cons in Hkg as [Hkg|Hkg]; [discriminate|].
          by apply elem_of_nil in Hkg. }
        apply elem_of_cons in Hg as [->|Hg]; [|by apply elem_of_nil in Hg].
        apply elem_of_cons in Hkg as [Hkg|Hkg]; [discriminate|].
        by apply elem_of_nil in Hkg.
Defined.

(** X7. [UpdateFromRecordData] panics exactly when the data map is nil and
    some group has a field; it then leaves the store as it was. In every
    other case it returns normally. *)
Theorem UpdateFromRecordData_panics_iff (h : store) (a : AuthData) (rdata : mapref) :
  ((UpdateFromRecordData h a rdata).2 = Panics "assignment to entry in nil map"
   ↔ data a = NilMap ∧ ∃ g k, g ∈ keys a ∧ k ∈ g)
  ∧ ((UpdateFromRecordData h a rdata).2 = Returns tt
     ∨ UpdateFromRecordData h a rdata
       = (h, Panics "assignment to entry in nil map")).
Proof.
  unfold UpdateFromRecordData. destruct (data a) as [|l]; simpl.
  - destruct (allKeys a) as [|k ks] eqn:Hall; simpl.
    + split; [|by left]. split; [done|]. intros (_ & g & k & Hg & Hk).
      assert (k ∈ allKeys a) as Hin by (apply elem_of_allKeys; eauto).
      rewrite Hall in Hin. by apply elem_of_nil in Hin.
    + split; [|by right]. split; [|done]. intros _. split; [done|].
      assert (k ∈ allKeys a) as Hin by (rewrite Hall; apply list_elem_of_here).
      apply elem_of_allKeys in Hin as (g & Hg & Hk). eauto.
  - split; [|by left]. split; [done|]. by intros [? _].
Qed.

Lemma UpdateFromRecordData_index (h : store) (a : AuthData) (rdata : mapref)
    (l : loc) (D : gomap) :
  data a = MapAt l →
  h !! l = Some D →
  ∃ D' : gomap,
    UpdateFromRecordData h a rdata
    = (<[l := D']> h, Returns tt)
    ∧ (∀ k, k ∈ allKeys a → D' !! k = Some (index (entries h rdata) k))
    ∧ (∀ k, k ∉ allKeys a → D' !! k = D !! k).
Proof.
  intros Hdata Hl.
  destruct (UpdateFromRecordData_sets_allKeys h a rdata l D Hdata Hl)
    as (h' & D' & -> & HD' & Hin & Hout & Hframe).
  exists D'. split; [|done]. f_equal. apply map_eq. intros l'.
  destruct (decide (l = l')) as [<-|Hne].
  - by rewrite lookup_insert_eq.
  - rewrite lookup_insert_ne by done. by apply Hframe.
Qed.

(** X8. After a refresh the record alone decides the group in use: on an
    AuthData whose data map exists, [usingKeys] after
    [UpdateFromRecordData(R)] is the first group satisfied by [R], the
    predicate is built from [R]'s values, and [IsValid] holds exactly when the
    data before the call had no field outside [allKeys] and [R] satisfies a
    non-empty first group. *)
Theorem UpdateFromRecordData_then_usingKeys (h : store) (a : AuthData)
    (rdata : mapref) (l : loc) (D : gomap) :
  data a = MapAt l →
  h !! l = Some D →
  let h' := (UpdateFromRecordData h a rdata).1 in
  let R := entries h rdata in
  usingKeys h' a = first_satisfied R (keys a)
  ∧ MakeEqualPredicate h' a
    = mkPredicate And (equal_terms R (first_satisfied R (keys a)))
  ∧ (IsValid h' a = true
     ↔ (∀ k, is_Some (D !! k) → k ∈ allKeys a)
       ∧ first_satisfied R (keys a) ≠ []).
Proof.
  intros Hdata Hl h' R. unfold h'.
  destruct (UpdateFromRecordData_index h a rdata l D Hdata Hl)
    as (D' & -> & Hin & Hout).
  simpl. fold R in Hin.
  assert (entries (<[l := D']> h) (data a) = D') as HD'.
  { rewrite Hdata. simpl. by rewrite lookup_insert_eq. }
  assert (∀ k, k ∈ allKeys a → index D' k = index R k) as Hidx.
  { intros k Hk. unfold index at 1. by rewrite (Hin k Hk). }
  assert (usingKeys (<[l := D']> h) a = first_satisfied R (keys a)) as Hu.
  { rewrite usingKeys_eq_first_satisfied, HD'. apply first_satisfied_agree.
    intros g k Hg Hk. rewrite !field_set_not_nil, Hidx; [done|].
    apply elem_of_allKeys. eauto. }
  split; [done|]. split.
  - rewrite MakeEqualPredicate_equal_terms, HD', Hu. f_equal.
    assert (∀ g, (∀ k, k ∈ g → k ∈ allKeys a) →
                 equal_terms D' g = equal_terms R g) as Hterms.
    { induction g as [|k g IH]; intros Hsub; [done|]. unfold equal_terms in *.
      cbn [omap list_omap]. rewrite IH.
      - unfold equal_term. rewrite Hidx; [done|]. apply Hsub, list_elem_of_here.
      - intros k' Hk'. by apply Hsub, list_elem_of_further. }
    apply Hterms. intros k Hk.
    destruct (first_satisfied_cases R (keys a))
      as [(pre & g & post & Hkeys & _ & _ & Heq)|[_ Heq]].
    + rewrite Heq in Hk. apply elem_of_allKeys. exists g. split; [|done].
      rewrite Hkeys. apply elem_of_app. right. apply list_elem_of_here.
    + rewrite Heq in Hk. by apply elem_of_nil in Hk.
  - rewrite IsValid_true_iff, HD', Hu. split; intros [Hstray Hne]; (split; [|done]).
    + intros k Hk. destruct (decide (k ∈ allKeys a)) as [|Hnin]; [done|].
      apply Hstray. by rewrite Hout.
    + intros k Hk. destruct (decide (k ∈ allKeys a)) as [|Hnin]; [done|].
      apply Hstray. by rewrite <- Hout.
Qed.

Lemma UpdateFromRecordData_then_usingKeys_witness :
  usingKeys
    (UpdateFromRecordData MoreSamples.signup_store MoreSamples.signup (MapAt 2)).1
    MoreSamples.signup
  = first_satisfied (entries MoreSamples.signup_store (MapAt 2))
                    (keys MoreSamples.signup).
Proof.
  apply (UpdateFromRecordData_then_usingKeys MoreSamples.signup_store
           MoreSamples.signup (MapAt 2) 1%positive
           (<[ "username" := VString "Eve" ]> {[ "nickname" := VString "e" ]})).
  - reflexivity.
  - vm_compute. reflexivity.
Defined.

Lemma UpdateFromRecordData_record_stable (h : store) (rdata : mapref) (l : loc)
    (D' : gomap) (ks : list string) :
  (∀ k, k ∈ ks → D' !! k = Some (index (entries h rdata) k)) →
  ∀ k, k ∈ ks → index (entries (<[l := D']> h) rdata) k = index (entries h rdata) k.
Proof.
  intros Hin k Hk. destruct rdata as [|l2]; [done|].
  destruct (decide (l = l2)) as [<-|Hne].
  - cbn [entries]. rewrite lookup_insert_eq. simpl.
    unfold index at 1. by rewrite (Hin k Hk).
  - cbn [entries]. by rewrite lookup_insert_ne.
Qed.

(** X9. A refresh is idempotent: running [UpdateFromRecordData] a second
    time with the same record gives the store and the outcome of the first
    run, also when the record is the data map itself and when the first run
    panicked. *)
Theorem UpdateFromRecordData_idempotent (h : store) (a : AuthData) (rdata : mapref) :
  allocated h (data a) →
  UpdateFromRecordData (UpdateFromRecordData h a rdata).1 a rdata
  = UpdateFromRecordData h a rdata.
Proof.
  intros Halloc. destruct (data a) as [|l] eqn:Hdata.
  - unfold UpdateFromRecordData. rewrite Hdata.
    destruct (allKeys a); done.
  - destruct Halloc as [D Hl].
    destruct (UpdateFromRecordData_index h a rdata l D Hdata Hl)
      as (D' & -> & Hin & Hout).
    cbn [fst].
    destruct (UpdateFromRecordData_index (<[l := D']> h) a rdata l D' Hdata)
      as (D'' & -> & Hin' & Hout'); [by rewrite lookup_insert_eq|].
    rewrite insert_insert_eq.
    assert (D'' = D') as ->; [|done].
    apply map_eq. intros k.
    destruct (decide (k ∈ allKeys a)) as [Hk|Hk].
    + rewrite (Hin' k Hk), (Hin k Hk). f_equal.
      by apply (UpdateFromRecordData_record_stable h rdata l D' (allKeys a)).
    + by apply Hout'.
Qed.

Lemma UpdateFromRecordData_idempotent_witness :
  UpdateFromRecordData
    (UpdateFromRecordData MoreSamples.signup_store MoreSamples.signup (MapAt 1)).1
    MoreSamples.signup (MapAt 1)
  = UpdateFromRecordData MoreSamples.signup_store MoreSamples.signup (MapAt 1).
Proof.
  apply (UpdateFromRecordData_idempotent MoreSamples.signup_store
           MoreSamples.signup (MapAt 1)).
  simpl. vm_compute. eauto.
Defined.

(** X10. A refresh made through a copy stays in the copy: for an AuthData
    built over the map [GetData] returned, [UpdateFromRecordData] never
    panics, even when the original data map is nil, and the original
    AuthData, with every object that existed before, is as it was. *)
Theorem UpdateFromRecordData_on_copy (h : store) (a : AuthData) (rdata : mapref) :
  allocated h (data a) →
  let copy := NewAuthData (GetData h a).2 (keys a) in
  let r := UpdateFromRecordData (GetData h a).1 copy rdata in
  r.2 = Returns tt
  ∧ (∀ l, is_Some (h !! l) → r.1 !! l = h !! l)
  ∧ entries r.1 (data a) = entries h (data a)
  ∧ usingKeys r.1 a = usingKeys h a
  ∧ IsValid r.1 a = IsValid h a
  ∧ IsEmpty r.1 a = IsEmpty h a.
Proof.
  intros Halloc copy r. unfold r, copy. rewrite GetData_eq. cbn [fst snd].
  pose proof (fresh_not_allocated h) as Hfresh.
  set (c := fresh (dom h)) in *. set (E := entries h (data a)).
  destruct (UpdateFromRecordData_index (<[c := E]> h)
              (NewAuthData (MapAt c) (keys a)) rdata c E)
    as (D' & -> & _ & _); [done|by rewrite lookup_insert_eq|].
  cbn [fst snd]. rewrite insert_insert_eq.
  assert (∀ l, is_Some (h !! l) → <[c := D']> h !! l = h !! l) as Hold.
  { intros l [m Hm]. assert (c ≠ l) by congruence. by rewrite lookup_insert_ne. }
  assert (entries (<[c := D']> h) (data a) = entries h (data a)) as Heq.
  { destruct (data a) as [|l]; [done|]. cbn [entries]. by rewrite Hold. }
  split; [done|]. split; [done|]. split; [done|].
  destruct (AuthData_methods_ext (<[c := D']> h) h a Heq) as (Hv & He & Hu & _).
  done.
Qed.

Lemma UpdateFromRecordData_on_copy_witness :
  (UpdateFromRecordData (GetData Samples.record_store Samples.no_map).1
     (NewAuthData (GetData Samples.record_store Samples.no_map).2
        (keys Samples.no_map)) (MapAt 2)).2 = Returns tt.
Proof.
  apply (UpdateFromRecordData_on_copy Samples.record_store Samples.no_map (MapAt 2)).
  exact I.
Defined.

(** ** AuthInfo: constructors and provider info *)

Lemma GetProviderInfoData_Set (info : AuthInfo) (id id' : string) (d : gomap) :
  GetProviderInfoData (SetProviderInfoData id d info) id'
  = if decide (id = id') then Some d else GetProviderInfoData info id'.
Proof.
  unfold GetProviderInfoData, SetProviderInfoData. cbn [ProviderInfo].
  destruct (decide (id = id')) as [->|Hne].
  - by rewrite lookup_insert_eq.
  - rewrite lookup_insert_ne by done. by destruct (ProviderInfo info).
Qed.

Lemma GetProviderInfoData_Remove (info : AuthInfo) (id id' : string) :
  GetProviderInfoData (RemoveProviderInfoData id info) id'
  = if decide (id = id') then None else GetProviderInfoData info id'.
Proof.
  unfold GetProviderInfoData, RemoveProviderInfoData.
  destruct (ProviderInfo info) as [m|] eqn:Hm; cbn [ProviderInfo].
  - destruct (decide (id = id')) as [->|Hne].
    + by rewrite lookup_delete_eq.
    + by rewrite lookup_delete_ne.
  - rewrite Hm. by destruct (decide (id = id')).
Qed.

(** X11. What is set for a principal is what is read back for it, on a
    principal record with or without provider info; the data of every other
    principal, and every other field of the record, are as before. *)
Theorem SetProviderInfoData_then_Get (info : AuthInfo) (id : string) (d : gomap) :
  let info' := SetProviderInfoData id d info in
  GetProviderInfoData info' id = Some d
  ∧ (∀ id', id' ≠ id → GetProviderInfoData info' id' = GetProviderInfoData info id')
  ∧ ID info' = ID info
  ∧ HashedPassword info' = HashedPassword info
  ∧ Roles info' = Roles info
  ∧ TokenValidSince info' = TokenValidSince info
  ∧ LastSeenAt info' = LastSeenAt info.
Proof.
  intros info'. unfold info'. split; [|split].
  - by rewrite GetProviderInfoData_Set, decide_True.
  - intros id' Hne. by rewrite GetProviderInfoData_Set, decide_False.
  - done.
Qed.

(** X12. After [RemoveProviderInfoData] the principal reads as having no
    data and every other principal reads as before; on a record whose
    provider info is nil the call changes nothing and allocates nothing;
    removing what was just set on a principal without data restores every
    read. *)
Theorem RemoveProviderInfoData_then_Get (info : AuthInfo) (id : string) :
  GetProviderInfoData (RemoveProviderInfoData id info) id = None
  ∧ (∀ id', id' ≠ id →
       GetProviderInfoData (RemoveProviderInfoData id info) id'
       = GetProviderInfoData info id')
  ∧ (ProviderInfo info = None → RemoveProviderInfoData id info = info)
  ∧ (∀ d id', GetProviderInfoData info id = None →
       GetProviderInfoData (RemoveProviderInfoData id (SetProviderInfoData id d info)) id'
       = GetProviderInfoData info id').
Proof.
  split; [|split; [|split]].
  - by rewrite GetProviderInfoData_Remove, decide_True.
  - intros id' Hne. by rewrite GetProviderInfoData_Remove, decide_False.
  - intros Hnil. unfold RemoveProviderInfoData. by rewrite Hnil.
  - intros d id' Hnone. rewrite GetProviderInfoData_Remove.
    destruct (decide (id = id')) as [<-|Hne]; [done|].
    by rewrite GetProviderInfoData_Set, decide_False.
Qed.

(** X13. Setting a principal's data twice keeps the last data, and setting
    the data of two different principals gives the same record in either
    order. *)
Theorem SetProviderInfoData_compose (info : AuthInfo) (id1 id2 : string)
    (d1 d2 : gomap) :
  SetProviderInfoData id1 d2 (SetProviderInfoData id1 d1 info)
  = SetProviderInfoData id1 d2 info
  ∧ (id1 ≠ id2 →
     SetProviderInfoData id1 d1 (SetProviderInfoData id2 d2 info)
     = SetProviderInfoData id2 d2 (SetProviderInfoData id1 d1 info)).
Proof.
  unfold SetProviderInfoData. cbn [ID HashedPassword Roles ProviderInfo
                                   TokenValidSince LastSeenAt].
  split.
  - by rewrite insert_insert_eq.
  - intros Hne. f_equal. f_equal. by apply insert_insert_ne.
Qed.

(** X14. A principal created for a provider holds the given data for the
    given principal ID and none for any other, has the generated ID, no
    token watermark and an empty hashed password, so that no password is the
    same as its password when the primitive rejects the empty hash. *)
Theorem NewProviderInfoAuthInfo_links_principal (B : Bcrypt)
    (id principalID : string) (d : gomap) (p : string) :
  rejects_empty_hash B →
  let info := NewProviderInfoAuthInfo id principalID d in
  GetProviderInfoData info principalID = Some d
  ∧ (∀ id', id' ≠ principalID → GetProviderInfoData info id' = None)
  ∧ ID info = id
  ∧ TokenValidSince info = None
  ∧ HashedPassword info = []
  ∧ IsSamePassword info p = false.
Proof.
  intros Hlaw info. unfold info, GetProviderInfoData. cbn [NewProviderInfoAuthInfo ProviderInfo].
  split; [by rewrite lookup_singleton_eq|]. split.
  - intros id' Hne. by rewrite lookup_singleton_ne.
  - do 3 (split; [done|]). unfold IsSamePassword. simpl.
    destruct (CompareHashAndPassword [] (String.list_byte_of_string p)) eqn:He;
      [done|]. by apply Hlaw in He.
Qed.

Lemma NewProviderInfoAuthInfo_links_principal_witness :
  GetProviderInfoData
    (NewProviderInfoAuthInfo "u2" "com.facebook:46709394" MoreSamples.facebook)
    "com.facebook:46709394" = Some MoreSamples.facebook
  ∧ @IsSamePassword transparent_bcrypt
      (NewProviderInfoAuthInfo "u2" "com.facebook:46709394" MoreSamples.facebook)
      "secret" = false.
Proof.
  destruct (NewProviderInfoAuthInfo_links_principal transparent_bcrypt "u2"
              "com.facebook:46709394" MoreSamples.facebook "secret"
              transparent_rejects_empty_hash) as (Hget & _ & _ & _ & _ & Hpw).
  split; [exact Hget|exact Hpw].
Defined.

(** X15. A principal created with a password authenticates with that
    password: when hashing succeeds and the primitive accepts the password a
    hash was generated from, [NewAuthInfo] returns a principal with the
    generated ID and the generated hash, for which [IsSamePassword] is true
    on the password and, on any string, is the primitive's comparison with
    that hash; its watermark is the clock reading and it has no role and no
    provider info. *)
Theorem NewAuthInfo_authenticates (B : Bcrypt) (id : string) (env : Env)
    (password : string) (hash : bytes) :
  accepts_generated B →
  GenerateFromPassword (String.list_byte_of_string password) DefaultCost
                       (entropy env) = inr hash →
  ∃ info : AuthInfo,
    NewAuthInfo id env password = Returns info
    ∧ ID info = id
    ∧ HashedPassword info = hash
    ∧ IsSamePassword info password = true
    ∧ (∀ p, IsSamePassword info p = true
            ↔ CompareHashAndPassword hash (String.list_byte_of_string p) = None)
    ∧ TokenValidSince info = Some (timeNow env)
    ∧ Roles info = []
    ∧ (∀ principalID, GetProviderInfoData info principalID = None).
Proof.
  intros Hlaw Hgen. unfold NewAuthInfo.
  rewrite (SetPassword_success _ _ _ _ Hgen). eexists. split; [done|].
  cbn [ID HashedPassword TokenValidSince Roles AuthInfo_with_ID].
  split; [done|]. split; [done|]. split; [|split; [|done]].
  - apply IsSamePassword_true_iff. cbn [HashedPassword]. by apply (Hlaw _ _ _ _ Hgen).
  - intros p. by rewrite IsSamePassword_true_iff.
Qed.

Lemma NewAuthInfo_authenticates_witness :
  ∃ info : AuthInfo,
    @NewAuthInfo keyed_bcrypt "u1" Samples.clock "secret" = Returns info
    ∧ @IsSamePassword keyed_bcrypt info "secret" = true.
Proof.
  destruct (NewAuthInfo_authenticates keyed_bcrypt "u1" Samples.clock
              "secret" (Byte.x24 :: bcrypt_key (String.list_byte_of_string "secret"))
              keyed_accepts_generated)
    as (info & Hnew & _ & _ & Hsame & _).
  - vm_compute. reflexivity.
  - exists info. split; [exact Hnew|exact Hsame].
Defined.

(** X16. Credentials and provider info do not touch each other: setting or
    removing a principal's provider data leaves [IsSamePassword] as it was,
    and [SetPassword], whether it returns or panics, leaves the ID, the
    roles, the last-seen time and every principal's provider data as they
    were. *)
Theorem credential_and_provider_info_independent (B : Bcrypt) (env : Env)
    (password : string) (info : AuthInfo) (id : string) (d : gomap) (p : string) :
  IsSamePassword (SetProviderInfoData id d info) p = IsSamePassword info p
  ∧ IsSamePassword (RemoveProviderInfoData id info) p = IsSamePassword info p
  ∧ (∀ principalID,
       GetProviderInfoData (SetPassword env password info).1 principalID
       = GetProviderInfoData info principalID)
  ∧ ID (SetPassword env password info).1 = ID info
  ∧ Roles (SetPassword env password info).1 = Roles info
  ∧ LastSeenAt (SetPassword env password info).1 = LastSeenAt info.
Proof.
  split; [done|]. split.
  - unfold RemoveProviderInfoData. by destruct (ProviderInfo info).
  - unfold SetPassword.
    destruct (GenerateFromPassword _ _ _) as [err|hash]; done.
Qed.

(** X17. Every call of [GetData] returns a map of its own: two successive
    copies are different objects, each holds the entries of the data map,
    the first one also after the second call, and writes made through the
    first are not seen through the second. *)
Theorem GetData_copies_are_distinct (h : store) (a : AuthData)
    (ws : list map_write) :
  allocated h (data a) →
  ∃ c1 c2 : loc,
    (GetData h a).2 = MapAt c1
    ∧ (GetData (GetData h a).1 a).2 = MapAt c2
    ∧ c1 ≠ c2
    ∧ entries (GetData h a).1 (MapAt c1) = entries h (data a)
    ∧ entries (GetData (GetData h a).1 a).1 (MapAt c1) = entries h (data a)
    ∧ entries (GetData (GetData h a).1 a).1 (MapAt c2) = entries h (data a)
    ∧ entries (apply_writes c1 (GetData (GetData h a).1 a).1 ws) (MapAt c2)
      = entries h (data a).
Proof.
  intros Halloc. rewrite GetData_eq. cbn [fst snd].
  set (c1 := fresh (dom h)). set (E := entries h (data a)).
  pose proof (fresh_not_allocated h) as Hc1. fold c1 in Hc1.
  assert (entries (<[c1 := E]> h) (data a) = E) as HE.
  { unfold E. destruct (data a) as [|l]; [done|]. cbn [entries].
    destruct Halloc as [m Hm]. assert (c1 ≠ l) by congruence.
    by rewrite lookup_insert_ne. }
  rewrite GetData_eq. cbn [fst snd]. rewrite HE.
  set (c2 := fresh (dom (<[c1 := E]> h))).
  pose proof (fresh_not_allocated (<[c1 := E]> h)) as Hc2. fold c2 in Hc2.
  assert (c1 ≠ c2) as Hne.
  { intros Heq. rewrite <- Heq, lookup_insert_eq in Hc2. done. }
  exists c1, c2. split; [done|]. split; [done|]. split; [done|].
  cbn [entries]. split; [by rewrite lookup_insert_eq|]. split.
  - rewrite lookup_insert_ne by congruence. by rewrite lookup_insert_eq.
  - rewrite apply_writes_other by done. by rewrite lookup_insert_eq.
Qed.

Lemma GetData_copies_are_distinct_witness :
  ∃ c1 c2 : loc,
    (GetData Samples.alice_store Samples.alice).2 = MapAt c1
    ∧ (GetData (GetData Samples.alice_store Samples.alice).1 Samples.alice).2
      = MapAt c2
    ∧ c1 ≠ c2
    ∧ entries (GetData Samples.alice_store Samples.alice).1 (MapAt c1)
      = entries Samples.alice_store (data Samples.alice).
Proof.
  destruct (GetData_copies_are_distinct Samples.alice_store Samples.alice
              [Delete "username"]) as (c1 & c2 & H1 & H2 & Hne & He1 & _).
  - simpl. vm_compute. eauto.
  - exists c1, c2. split; [exact H1|]. split; [exact H2|].
    split; [exact Hne|exact He1].
Defined.
